(** * garden_opt: the scheduling-model builder

    A shallow embedding of [src/garden.py] (the crop catalog, its expansion
    with companion crops, yield attribution) and of [src/main.py] (the
    construction of the linear program, the overlap of plantings in time and
    the sensitivity re-run), with the properties of the design document.

    Conventions of the embedding.
    - JSON numbers ([yield], [water_use], [delta_n], [sqft], the water
      budgets, the yield targets) are exact rationals [Q]; the literals
      [0.1] and [0.5] are [1#10] and [1#2].  [lifespan] and [weeks] are
      integers [Z]: [range] accepts nothing else.
    - A Python exception is a value of [Exception]; a computation that can
      raise has type [Result A].
    - The keys that the class [Crop] declares with [total=False] are
      optional fields; reading a missing one raises [KeyError].
    - pulp is an external library.  An [LpVariable] is identified by the
      family it was created in and by its key in that family, an affine
      expression is the tree of the operations that built it, and an
      [LpProblem] is its objective with its named constraints in the order
      of insertion. *)

From Stdlib Require Import QArith.
From stdpp Require Import gmap strings list pretty numbers.

Local Open Scope string_scope.
Local Open Scope list_scope.
Local Open Scope Z_scope.

(** ** Exceptions *)

Inductive Exception := KeyError | IndexError | ZeroDivisionError.

Inductive Result (A : Type) :=
| Ok (a : A)
| Raise (e : Exception).
Arguments Ok {A} a.
Arguments Raise {A} e.

#[global] Instance Result_ret : MRet Result := fun A a => Ok a.
#[global] Instance Result_bind : MBind Result := fun A B f m =>
  match m with
  | Ok a => f a
  | Raise e => Raise e
  end.

(** [for x in l: body], threading the variables the body assigns. *)
Fixpoint for_ {S A : Type} (l : list A) (body : S -> A -> Result S) (s : S)
  : Result S :=
  match l with
  | [] => Ok s
  | x :: l' => s' ← body s x; for_ l' body s'
  end.

(** A list comprehension whose element expression can raise. *)
Fixpoint comprehension {A B : Type} (f : A -> Result B) (l : list A)
  : Result (list B) :=
  match l with
  | [] => Ok []
  | x :: l' => y ← f x; ys ← comprehension f l'; Ok (y :: ys)
  end.

(** [d[k]] on a dict, and on the optional key of a [TypedDict]. *)
Definition getitem {A : Type} (o : option A) : Result A :=
  match o with
  | Some a => Ok a
  | None => Raise KeyError
  end.

(** [a // b] on integers. *)
Definition floordiv (a b : Z) : Result Z :=
  if decide (b = 0) then Raise ZeroDivisionError else Ok (a `div` b).

(** [range(a, b)]. *)
Definition range (a b : Z) : list Z := seqZ a (b - a).

(** ** garden.py: the data model *)

Record Crop := {
  name : string;
  companions : list string;
  greywater_ok : bool;
  yield : Q;
  water_use : Q;
  delta_n : Q;
  lifespan : Z;
  is_cover_crop : bool;
  is_compound : bool;
  plant_1_yield : option Q;
  plant_2_yield : option Q;
  plant_1_name : option string;
  plant_2_name : option string
}.

Record YieldSpec := {
  plant : string;
  min_yield : Q;
  max_yield : option Q;
  max_yield_pct : option Q
}.

Record GardenSchema := {
  sqft : Q;
  weeks : Z;
  greywater : Q;
  rainwater : Q;
  yields : list YieldSpec
}.

Record Garden := {
  crops : list Crop;
  garden : GardenSchema
}.

(** [plant['is_compound'] = False] *)
Definition set_not_compound (plant : Crop) : Crop :=
  {| name := name plant; companions := companions plant;
     greywater_ok := greywater_ok plant; yield := yield plant;
     water_use := water_use plant; delta_n := delta_n plant;
     lifespan := lifespan plant; is_cover_crop := is_cover_crop plant;
     is_compound := false;
     plant_1_yield := plant_1_yield plant;
     plant_2_yield := plant_2_yield plant;
     plant_1_name := plant_1_name plant;
     plant_2_name := plant_2_name plant |}.

(** The body of the inner loop of [Garden.__init__]: the compound entry of
    [crop] with one of its companions. *)
Definition compound_crop (crop companion : Crop) : Result Crop :=
  let longest_lifespan := Z.max (lifespan crop) (lifespan companion) in
  crop_multiplier ← floordiv longest_lifespan (lifespan crop);
  companion_multiplier ← floordiv longest_lifespan (lifespan companion);
  let crop_yield := (inject_Z crop_multiplier * yield crop)%Q in
  let companion_yield := (inject_Z companion_multiplier * yield companion)%Q in
  Ok {| name := name crop +:+ "-" +:+ name companion;
        plant_1_name := Some (name crop);
        plant_2_name := Some (name companion);
        companions := [];
        delta_n := (delta_n crop * inject_Z crop_multiplier
                    + delta_n companion * inject_Z companion_multiplier)%Q;
        water_use := (water_use crop + water_use companion)%Q;
        greywater_ok := greywater_ok crop && greywater_ok companion;
        yield := (crop_yield + companion_yield)%Q;
        plant_1_yield := Some crop_yield;
        plant_2_yield := Some companion_yield;
        is_compound := true;
        lifespan := longest_lifespan;
        is_cover_crop := is_cover_crop crop && is_cover_crop companion |}.

(** The two nested loops that fill [compound_crops]; [self_crops] is
    [self.crops] as it stands while they run: the base crops only. *)
Definition generate_compound_crops (self_crops : list Crop)
  : Result (list Crop) :=
  for_ self_crops (fun compound_crops crop =>
    let companions_ :=
      filter (fun c => name c ∈ companions crop) self_crops in
    for_ companions_ (fun compound_crops companion =>
      c ← compound_crop crop companion;
      Ok (compound_crops ++ [c])) compound_crops) [].

(** [Garden.__init__], after the files are read and validated: [garden_]
    is the garden file and [plants] are the plant files, in order. *)
Definition Garden_init (garden_ : GardenSchema) (plants : list Crop)
  : Result Garden :=
  let self_crops := set_not_compound <$> plants in
  compound_crops ← generate_compound_crops self_crops;
  Ok {| crops := self_crops ++ compound_crops; garden := garden_ |}.

Definition get_target_yields (self : Garden) (target : string)
  : Result (gmap string Q) :=
  for_ (crops self) (fun yields_ c =>
    if negb (is_compound c) then
      if decide (name c = target)
      then Ok (<[name c := yield c]> yields_)
      else Ok yields_
    else
      p1 ← getitem (plant_1_name c);
      if decide (p1 = target)
      then y ← getitem (plant_1_yield c); Ok (<[name c := y]> yields_)
      else
        p2 ← getitem (plant_2_name c);
        if decide (p2 = target)
        then y ← getitem (plant_2_yield c); Ok (<[name c := y]> yields_)
        else Ok yields_) ∅.

Definition get_plants (self : Garden) : list string :=
  name <$> crops self.

Definition get_crop_by_name (self : Garden) (name_ : string) : Result Crop :=
  match filter (fun c => name c = name_) (crops self) with
  | c :: _ => Ok c
  | [] => Raise IndexError
  end.

Definition get_non_compound_plant_names (self : Garden) : list string :=
  name <$> filter (fun p => is_compound p = false) (crops self).

Definition get_greywater_plants (self : Garden) : list Crop :=
  filter (fun c => greywater_ok c = true) (crops self).

Definition get_plant_weeks (self : Garden) : list string :=
  c ← get_plants self;
  (fun w => c +:+ "_week_" +:+ pretty w) <$> range 0 (weeks (garden self)).

Definition get_weeks_for_plant (self : Garden) (plant_ : Crop) : list string :=
  (fun w => name plant_ +:+ "_week_" +:+ pretty w)
    <$> range 0 (weeks (garden self)).

(** ** pulp: variables, affine expressions, constraints, problems *)

(** [LpVariable.dicts("planted", ...)] and [LpVariable.dicts("fallow", ...)]
    create one variable per key. *)
Inductive LpVariable :=
| planted (key : string)
| fallow (key : Z).

#[local] Set Warnings "-register-all".
Inductive LpAffineExpression :=
| Var (v : LpVariable)
| Const (q : Q)
| lpSum (terms : list LpAffineExpression)
| Scale (q : Q) (e : LpAffineExpression)
| Plus (a b : LpAffineExpression).

Inductive Sense := LpConstraintLE | LpConstraintEQ | LpConstraintGE.

Record LpConstraint := {
  lhs : LpAffineExpression;
  sense : Sense;
  rhs : LpAffineExpression
}.

Record LpProblem := {
  objective : option LpAffineExpression;
  constraints : list (string * LpConstraint)
}.

(** [LpProblem("Garden_Problem", LpMaximize)] *)
Definition LpProblem_new : LpProblem :=
  {| objective := None; constraints := [] |}.

(** [prob += expression] *)
Definition set_objective (prob : LpProblem) (e : LpAffineExpression)
  : LpProblem :=
  {| objective := Some e; constraints := constraints prob |}.

(** [prob += constraint, name] *)
Definition add_constraint (prob : LpProblem) (c : LpConstraint)
  (name_ : string) : LpProblem :=
  {| objective := objective prob;
     constraints := constraints prob ++ [(name_, c)] |}.

(** [LpVariable.dicts]: [d[i] = LpVariable(...)] for [i] in [indices]. *)
Definition LpVariable_dicts `{Countable K} (family : K -> LpVariable)
  (indices : list K) : gmap K LpVariable :=
  foldl (fun d i => <[i := family i]> d) ∅ indices.

(** [d.values()] and [d.items()] *)
Definition dict_values `{Countable K} {V} (d : gmap K V) : list V :=
  snd <$> map_to_list d.
Definition dict_items `{Countable K} {V} (d : gmap K V) : list (K * V) :=
  map_to_list d.

(** The value of an expression under an assignment of the variables. *)
Fixpoint value (x : LpVariable -> Q) (e : LpAffineExpression) : Q :=
  match e with
  | Var v => x v
  | Const q => q
  | lpSum terms =>
      (fix go (l : list LpAffineExpression) : Q :=
         match l with
         | [] => 0%Q
         | t :: l' => (value x t + go l')%Q
         end) terms
  | Scale q e' => (q * value x e')%Q
  | Plus a b => (value x a + value x b)%Q
  end.


Definition satisfies (x : LpVariable -> Q) (c : LpConstraint) : Prop :=
  match sense c with
  | LpConstraintLE => (value x (lhs c) <= value x (rhs c))%Q
  | LpConstraintEQ => (value x (lhs c) == value x (rhs c))%Q
  | LpConstraintGE => (value x (rhs c) <= value x (lhs c))%Q
  end.

(** ** main.py: the model builder *)

Definition get_plant_variable_name (crop : string) (week : Z) : string :=
  crop +:+ "_week_" +:+ pretty week.

Definition get_variable_names_for_weeks (crop : string)
  (week_start week_end : Z) : list string :=
  get_plant_variable_name crop <$> range week_start week_end.

Definition get_plants_living_in_week (crop : Crop) (week : Z)
  (plant_vars : gmap string LpVariable) : Result (list LpVariable) :=
  let earliest_planting := (week - lifespan crop) + 1 in
  let earliest_planting :=
    if decide (earliest_planting < 0) then 0 else earliest_planting in
  comprehension (fun v => getitem (plant_vars !! v))
    (get_variable_names_for_weeks (name crop) earliest_planting (week + 1)).

(** [lpSum] of a list of variables, and [k * lpSum] of one. *)
Definition lpSum_vars (vs : list LpVariable) : LpAffineExpression :=
  lpSum (Var <$> vs).

(** Lines 28-49: the constraints of week [w]. *)
Definition week_constraints (garden_ : Garden)
  (plant_vars : gmap string LpVariable) (fallow_vars : gmap Z LpVariable)
  (prob : LpProblem) (w : Z) : Result LpProblem :=
  prev_planting_expressions ←
    for_ (crops garden_) (fun prev_planting_expressions crop =>
      crops_living_in_week ← get_plants_living_in_week crop w plant_vars;
      Ok (prev_planting_expressions ++ [lpSum_vars crops_living_in_week]))
      [];
  fallow_w ← getitem (fallow_vars !! w);
  let prob := add_constraint prob
    {| lhs := Plus (lpSum prev_planting_expressions) (Var fallow_w);
       sense := LpConstraintEQ;
       rhs := Const (sqft (garden garden_)) |}
    ("land_constraint_week_" +:+ pretty w) in
  grey ← comprehension (fun c =>
      living ← get_plants_living_in_week c w plant_vars;
      Ok (Scale (water_use c) (lpSum_vars living)))
    (get_greywater_plants garden_);
  let prob := add_constraint prob
    {| lhs := lpSum grey;
       sense := LpConstraintGE;
       rhs := Const (greywater (garden garden_)) |}
    ("use_all_greywater_week_" +:+ pretty w) in
  total ← comprehension (fun c =>
      living ← get_plants_living_in_week c w plant_vars;
      Ok (Scale (water_use c) (lpSum_vars living)))
    (crops garden_);
  Ok (add_constraint prob
    {| lhs := lpSum total;
       sense := LpConstraintLE;
       rhs := Const (greywater (garden garden_)
                     + rainwater (garden garden_))%Q |}
    ("total_water_constraint_week_" +:+ pretty w)).

(** Lines 52-61: the constraints of one yield target. *)
Definition yield_constraints (num_weeks : Z) (garden_ : Garden)
  (plant_vars : gmap string LpVariable) (total_yield : LpAffineExpression)
  (prob : LpProblem) (yield_spec : YieldSpec) : Result LpProblem :=
  let target := plant yield_spec in
  target_yields ← get_target_yields garden_ target;
  terms ← comprehension (fun '(c, y) =>
      vs ← comprehension (fun v => getitem (plant_vars !! v))
             (get_variable_names_for_weeks c 0 num_weeks);
      Ok (Scale y (lpSum_vars vs)))
    (dict_items target_yields);
  let sum_contributing_crops := lpSum terms in
  let prob := add_constraint prob
    {| lhs := sum_contributing_crops;
       sense := LpConstraintGE;
       rhs := Const (min_yield yield_spec) |}
    (target +:+ "_min_yield") in
  let prob :=
    match max_yield yield_spec with
    | Some m => add_constraint prob
        {| lhs := sum_contributing_crops;
           sense := LpConstraintLE;
           rhs := Const m |}
        (target +:+ "_max_yield")
    | None => prob
    end in
  let prob :=
    match max_yield_pct yield_spec with
    | Some pct => add_constraint prob
        {| lhs := sum_contributing_crops;
           sense := LpConstraintLE;
           rhs := Scale pct total_yield |}
        (target +:+ "_max_yield_percent")
    | None => prob
    end in
  Ok prob.

(** Lines 64-70: the latest planting of one crop. *)
Definition latest_planting (num_weeks : Z)
  (plant_vars : gmap string LpVariable)
  (prob : LpProblem) (crop : Crop) : Result LpProblem :=
  if negb (is_cover_crop crop) then
    plants_that_overlap ←
      get_plants_living_in_week crop (num_weeks - 1) plant_vars;
    let plants_that_overlap :=
      if decide (lifespan crop <= num_weeks
                 /\ (0 < length plants_that_overlap)%nat)
      then drop 1 plants_that_overlap
      else plants_that_overlap in
    Ok (add_constraint prob
      {| lhs := lpSum_vars plants_that_overlap;
         sense := LpConstraintEQ;
         rhs := Const 0 |}
      ("latest_planting_" +:+ name crop))
  else Ok prob.

(** Line 24: the penalty for land left fallow. *)
Definition fallow_penalty (fallow_vars : gmap Z LpVariable)
  : LpAffineExpression :=
  lpSum ((fun f => Scale (1#10) (Var f)) <$> dict_values fallow_vars).

(** [setup_problem]; [num_weeks] is the global variable of that name. *)
Definition setup_problem (num_weeks : Z) (garden_ : Garden)
  : Result (LpProblem * LpAffineExpression * LpAffineExpression
            * gmap string LpVariable * gmap Z LpVariable) :=
  let prob := LpProblem_new in
  let plant_vars := LpVariable_dicts planted (get_plant_weeks garden_) in
  let fallow_vars := LpVariable_dicts fallow (range 0 num_weeks) in
  yield_terms ← comprehension (fun c =>
      vs ← comprehension (fun c_w => getitem (plant_vars !! c_w))
             (get_weeks_for_plant garden_ c);
      Ok (Scale (yield c) (lpSum_vars vs)))
    (crops garden_);
  let total_yield := lpSum yield_terms in
  nitrogen_terms ← comprehension (fun c =>
      vs ← comprehension (fun v => getitem (plant_vars !! v))
             (get_variable_names_for_weeks (name c) 0 num_weeks);
      Ok (Scale (delta_n c) (lpSum_vars vs)))
    (crops garden_);
  let nitrogen_expression := lpSum nitrogen_terms in
  let fallow_ := fallow_penalty fallow_vars in
  let prob :=
    set_objective prob (Plus total_yield (Scale (1#10) nitrogen_expression)) in
  prob ← for_ (range 0 num_weeks)
           (week_constraints garden_ plant_vars fallow_vars) prob;
  prob ← for_ (yields (garden garden_))
           (yield_constraints num_weeks garden_ plant_vars total_yield) prob;
  prob ← for_ (crops garden_) (latest_planting num_weeks plant_vars) prob;
  let prob := add_constraint prob
    {| lhs := nitrogen_expression;
       sense := LpConstraintGE;
       rhs := Const 0 |}
    "nitrogen constraints" in
  Ok (prob, total_yield, nitrogen_expression, plant_vars, fallow_vars).

(** ** main.py: the script *)




Section Script.
(** [prob.solve()] followed by [prob.sol_status]: the external solver. *)
Variable sol_status : LpProblem -> Z.

End Script.

(** ** main.py: the report on an optimal solution

    The workbook itself is left out: a cell of the plantings sheet is
    modelled by the instructions its text is made of, the label of a row
    by the text of the label.  [varValue] is the assignment that the solver
    returned and [round_] is Python's [round]. *)

(** The character [-] (code 45). *)
Definition hyphen : Ascii.ascii :=
  Ascii.Ascii true false true true false true false false.

#[global] Instance Qle_dec (x y : Q) : Decision (x <= y)%Q :=
  decide (Qnum x * QDen y ≤ Qnum y * QDen x).
#[global] Instance Qlt_dec (x y : Q) : Decision (x < y)%Q :=
  decide (Qnum x * QDen y < Qnum y * QDen x).

(** [s.split('-')] *)
Fixpoint split_hyphen (s : string) : list string :=
  match s with
  | EmptyString => [EmptyString]
  | String a s' =>
      if decide (a = hyphen) then EmptyString :: split_hyphen s'
      else match split_hyphen s' with
           | part :: parts => String a part :: parts
           | [] => [String a EmptyString]
           end
  end.

(** ["-" in s] *)
Fixpoint contains_hyphen (s : string) : bool :=
  match s with
  | EmptyString => false
  | String a s' => if decide (a = hyphen) then true else contains_hyphen s'
  end.

(** [l[i]] on a list. *)
Definition getindex {A : Type} (l : list A) (i : nat) : Result A :=
  match l !! i with
  | Some a => Ok a
  | None => Raise IndexError
  end.

(** Line 151. *)
Definition pretty_name (c : string) : Result string :=
  if contains_hyphen c then
    first ← getindex (split_hyphen c) 0;
    second ← getindex (split_hyphen c) 1;
    Ok (first +:+ " with " +:+ second)
  else Ok c.

(** Line 124: the attributed yields of every non-compound plant. *)
Definition crop_mapping (garden_ : Garden)
  : Result (gmap string (gmap string Q)) :=
  for_ (get_non_compound_plant_names garden_) (fun mapping p =>
    target_yields ← get_target_yields garden_ p;
    Ok (<[p := target_yields]> mapping)) ∅.

(** Line 125: the names that contribute to some non-compound plant. *)
Definition unique_crops (crop_mapping_ : gmap string (gmap string Q))
  : gset string :=
  ⋃ (dom <$> dict_values crop_mapping_).

(** [int(x)]: the fraction is cut off, towards zero. *)
Definition int_ (x : Q) : Z := Qnum x ÷ Z.pos (Qden x).

(** The builtin [sum], on numbers and on integers. *)
Definition sum_ (l : list Q) : Q := foldl Qplus 0%Q l.
Definition sum_int (l : list Z) : Z := foldl Z.add 0 l.

Inductive Instruction :=
| Plant (area : Q)
| Harvest (area : Q) (planted_in_week : Z).

Record Cell := {
  row_label : option string;
  instructions : list Instruction
}.

Section Report.
Variable varValue : LpVariable -> Q.
Variable round_ : Q -> Z -> Q.

Definition epsilon : Q := 1#10.

(** Lines 135-137: the yield of one target that the summary shows;
    [t_yields] is the entry of the target in [crop_mapping]. *)
Definition target_yield_sum (num_weeks : Z)
  (plant_vars : gmap string LpVariable) (t_yields : gmap string Q)
  : Result Z :=
  terms ← comprehension (fun '(c, y) =>
      values ← comprehension (fun v =>
                   plant_var ← getitem (plant_vars !! v);
                   Ok (varValue plant_var))
                 (get_variable_names_for_weeks c 0 num_weeks);
      Ok (int_ (y * sum_ values)))
    (dict_items t_yields);
  Ok (sum_int terms).

(** Lines 148-164: the row [c] of the plantings sheet at week [w]. *)
Definition plantings_cell (garden_ : Garden)
  (plant_vars : gmap string LpVariable) (c : string) (w : Z) : Result Cell :=
  let instructions_ := [] in
  plant_var ← getitem (plant_vars !! get_plant_variable_name c w);
  pretty_name_ ← pretty_name c;
  let row_label_ := if decide (w = 0) then Some pretty_name_ else None in
  let instructions_ :=
    if decide (epsilon <= varValue plant_var)%Q
    then instructions_ ++ [Plant (round_ (varValue plant_var) 1)]
    else instructions_ in
  crop ← get_crop_by_name garden_ c;
  let harvest_from := (w + 1) - lifespan crop in
  if decide (harvest_from >= 0) then
    harvest_var ←
      getitem (plant_vars !! get_plant_variable_name c harvest_from);
    if decide (epsilon < varValue harvest_var)%Q
    then Ok {| row_label := row_label_;
               instructions :=
                 instructions_
                 ++ [Harvest (round_ (varValue harvest_var) 1) harvest_from] |}
    else Ok {| row_label := row_label_; instructions := instructions_ |}
  else Ok {| row_label := row_label_; instructions := instructions_ |}.
End Report.

(** ** The notions of the design document *)

Definition sumQ (l : list Q) : Q := foldr Qplus 0%Q l.

(** The weeks [lo .. hi], both ends included, in ascending order. *)
Definition interval (lo hi : Z) : list Z := seqZ lo (hi - lo + 1).

(** The variable of the area planted with [crop] at the start of week [p]. *)
Definition planting (crop : string) (p : Z) : LpVariable :=
  planted (get_plant_variable_name crop p).

(** The planting weeks of [c] that still occupy area during week [w]. *)
Definition alive_weeks (c : Crop) (w : Z) : list Z :=
  interval (Z.max 0 (w - lifespan c + 1)) w.

Definition alive_vars (c : Crop) (w : Z) : list LpVariable :=
  planting (name c) <$> alive_weeks c w.

(** The area that [c] occupies during week [w] under the assignment [x]. *)
Definition alive_area (x : LpVariable -> Q) (c : Crop) (w : Z) : Q :=
  sumQ (x <$> alive_vars c w).

(** A problem with more constraints at its end. *)
Definition extend (prob : LpProblem) (cs : list (string * LpConstraint))
  : LpProblem :=
  {| objective := objective prob; constraints := constraints prob ++ cs |}.

(** Every compound entry carries its four compound-only keys. *)
Definition crop_wf (c : Crop) : bool :=
  implb (is_compound c)
    (bool_decide (is_Some (plant_1_name c)) && bool_decide (is_Some (plant_2_name c))
     && bool_decide (is_Some (plant_1_yield c))
     && bool_decide (is_Some (plant_2_yield c))).

Definition Garden_wf (self : Garden) : Prop :=
  forallb crop_wf (crops self) = true.

(** ** Gardens used as examples *)

Definition base_crop (name_ : string) (companions_ : list string)
  (lifespan_ : Z) (yield_ : Q) (cover : bool) : Crop :=
  {| name := name_; companions := companions_; greywater_ok := true;
     yield := yield_; water_use := 1; delta_n := 0; lifespan := lifespan_;
     is_cover_crop := cover; is_compound := false;
     plant_1_yield := None; plant_2_yield := None;
     plant_1_name := None; plant_2_name := None |}.

(** The end-to-end scenario of the design document. *)
Definition lettuce : Crop := base_crop "lettuce" [] 2 1 false.

Definition lettuce_params : GardenSchema :=
  {| sqft := 100; weeks := 4; greywater := 0; rainwater := 1000;
     yields := [ {| plant := "lettuce"; min_yield := 50;
                    max_yield := None; max_yield_pct := None |} ] |}.

Definition lettuce_garden : Garden :=
  {| crops := [lettuce]; garden := lettuce_params |}.

(** The companion pair of the design document, each naming the other. *)
Definition crop_A : Crop := base_crop "A" ["B"; "nobody"] 4 10 false.
Definition crop_B : Crop := base_crop "B" ["A"] 2 3 true.

(** The yield per unit of area that the entry [c] contributes to [target]. *)
Definition attributed (target : string) (c : Crop) : option Q :=
  if is_compound c then
    if decide (plant_1_name c = Some target) then plant_1_yield c
    else if decide (plant_2_name c = Some target) then plant_2_yield c
    else None
  else if decide (name c = target) then Some (yield c) else None.

Definition record_yield (target : string) (ys : gmap string Q) (c : Crop)
  : gmap string Q :=
  match attributed target c with
  | Some y => <[name c := y]> ys
  | None => ys
  end.

(** The example of the design document: one base entry and one compound. *)
Definition tomato : Crop := base_crop "tomato" ["basil"] 4 5 false.
Definition tomato_basil : Crop :=
  {| name := "tomato-basil"; companions := []; greywater_ok := true;
     yield := 11; water_use := 2; delta_n := 0; lifespan := 4;
     is_cover_crop := false; is_compound := true;
     plant_1_yield := Some 8%Q; plant_2_yield := Some 3%Q;
     plant_1_name := Some "tomato"; plant_2_name := Some "basil" |}.
Definition tomato_garden : Garden :=
  {| crops := [tomato; tomato_basil]; garden := lettuce_params |}.

(** The compound entry of the ordered pair ([C], [P]), as the design
    document derives it. *)
Definition compound_entry_of (C P e : Crop) : Prop :=
  let longest_lifespan := Z.max (lifespan C) (lifespan P) in
  let C_multiplier := longest_lifespan `div` lifespan C in
  let P_multiplier := longest_lifespan `div` lifespan P in
  lifespan e = longest_lifespan
  ∧ yield e = (inject_Z C_multiplier * yield C
               + inject_Z P_multiplier * yield P)%Q
  ∧ plant_1_yield e = Some (inject_Z C_multiplier * yield C)%Q
  ∧ plant_2_yield e = Some (inject_Z P_multiplier * yield P)%Q
  ∧ delta_n e = (delta_n C * inject_Z C_multiplier
                 + delta_n P * inject_Z P_multiplier)%Q
  ∧ water_use e = (water_use C + water_use P)%Q
  ∧ greywater_ok e = greywater_ok C && greywater_ok P
  ∧ is_cover_crop e = is_cover_crop C && is_cover_crop P
  ∧ name e = name C +:+ "-" +:+ name P
  ∧ plant_1_name e = Some (name C)
  ∧ plant_2_name e = Some (name P)
  ∧ is_compound e = true
  ∧ companions e = [].

(** [P] is named by [C] as a companion. *)
Definition names_companion (C P : Crop) : Prop := name P ∈ companions C.

#[global] Instance names_companion_dec (C P : Crop)
  : Decision (names_companion C P) :=
  decide (name P ∈ companions C).

(** The positions of a list whose element satisfies [P]. *)
Fixpoint positions {A : Type} (P : A -> Prop) `{!∀ x, Decision (P x)}
  (l : list A) : list nat :=
  match l with
  | [] => []
  | a :: l' => (if decide (P a) then [0%nat] else []) ++ (S <$> positions P l')
  end.

(** The ordered pairs of positions ([i], [j]) of [base], [i] taken from
    [k] on along [rest], such that the crop at [i] names the crop at [j]. *)
Fixpoint companion_pairs_from (k : nat) (rest base : list Crop)
  : list (nat * nat) :=
  match rest with
  | [] => []
  | C :: rest' =>
      (pair k <$> positions (names_companion C) base)
      ++ companion_pairs_from (S k) rest' base
  end.

Definition companion_pairs (base : list Crop) : list (nat * nat) :=
  companion_pairs_from 0 base base.

(** A crop without the companions that no crop of [names] bears. *)
Definition without_unmatched (names : list string) (c : Crop) : Crop :=
  {| name := name c;
     companions := filter (fun n => n ∈ names) (companions c);
     greywater_ok := greywater_ok c; yield := yield c;
     water_use := water_use c; delta_n := delta_n c;
     lifespan := lifespan c; is_cover_crop := is_cover_crop c;
     is_compound := is_compound c;
     plant_1_yield := plant_1_yield c;
     plant_2_yield := plant_2_yield c;
     plant_1_name := plant_1_name c;
     plant_2_name := plant_2_name c |}.

(** ** The model, block by block *)

(** The dictionaries of variables that [setup_problem] creates. *)
Definition plant_vars_of (self : Garden) : gmap string LpVariable :=
  LpVariable_dicts planted (get_plant_weeks self).
Definition fallow_vars_of (num_weeks : Z) : gmap Z LpVariable :=
  LpVariable_dicts fallow (range 0 num_weeks).

(** All the planting-week variables of [c] over a horizon of [num_weeks]. *)
Definition planted_vars (num_weeks : Z) (c : Crop) : list LpVariable :=
  planting (name c) <$> interval 0 (num_weeks - 1).


Definition total_yield_of (self : Garden) : LpAffineExpression :=
  lpSum ((fun c => Scale (yield c)
                     (lpSum_vars (planted_vars (weeks (garden self)) c)))
           <$> crops self).

Definition nitrogen_of (self : Garden) : LpAffineExpression :=
  lpSum ((fun c => Scale (delta_n c)
                     (lpSum_vars (planted_vars (weeks (garden self)) c)))
           <$> crops self).

Definition land_constraint (self : Garden) (w : Z) : LpConstraint :=
  {| lhs := Plus (lpSum ((fun c => lpSum_vars (alive_vars c w)) <$> crops self))
              (Var (fallow w));
     sense := LpConstraintEQ;
     rhs := Const (sqft (garden self)) |}.

Definition water_demand (cs : list Crop) (w : Z) : LpAffineExpression :=
  lpSum ((fun c => Scale (water_use c) (lpSum_vars (alive_vars c w))) <$> cs).

Definition greywater_constraint (self : Garden) (w : Z) : LpConstraint :=
  {| lhs := water_demand (get_greywater_plants self) w;
     sense := LpConstraintGE;
     rhs := Const (greywater (garden self)) |}.

Definition total_water_constraint (self : Garden) (w : Z) : LpConstraint :=
  {| lhs := water_demand (crops self) w;
     sense := LpConstraintLE;
     rhs := Const (greywater (garden self) + rainwater (garden self))%Q |}.

Definition week_block (self : Garden) (w : Z)
  : list (string * LpConstraint) :=
  [ ("land_constraint_week_" +:+ pretty w, land_constraint self w);
    ("use_all_greywater_week_" +:+ pretty w, greywater_constraint self w);
    ("total_water_constraint_week_" +:+ pretty w,
     total_water_constraint self w) ].

(** The planting weeks of [c] that the harvestability constraint forces to
    zero: those alive in the final week, less the earliest of them when the
    lifespan fits within the horizon. *)
Definition too_late_weeks (num_weeks : Z) (c : Crop) : list Z :=
  if decide (1 ≤ lifespan c ≤ num_weeks)
  then interval (num_weeks - lifespan c + 1) (num_weeks - 1)
  else alive_weeks c (num_weeks - 1).

Definition latest_planting_constraint (num_weeks : Z) (c : Crop)
  : string * LpConstraint :=
  ("latest_planting_" +:+ name c,
   {| lhs := lpSum_vars (planting (name c) <$> too_late_weeks num_weeks c);
      sense := LpConstraintEQ;
      rhs := Const 0 |}).

Definition latest_planting_block (num_weeks : Z) (cs : list Crop)
  : list (string * LpConstraint) :=
  latest_planting_constraint num_weeks
    <$> filter (fun c => is_cover_crop c = false) cs.

Definition nitrogen_constraint (self : Garden) : string * LpConstraint :=
  ("nitrogen constraints",
   {| lhs := nitrogen_of self; sense := LpConstraintGE; rhs := Const 0 |}).

(** ** Two sentences of the design document, as they are written *)




(** ** Notions for the further properties *)

(** The character [_] (code 95). *)
Definition underscore : Ascii.ascii :=
  Ascii.Ascii true true true true true false true false.

(** How often the character [a] occurs in [s]. *)
Fixpoint count_char (a : Ascii.ascii) (s : string) : nat :=
  match s with
  | EmptyString => 0
  | String b s' => (if decide (a = b) then 1 else 0) + count_char a s'
  end.

(** The mapping that [get_target_yields] computes when it does not raise. *)
Definition target_yields_of (self : Garden) (target : string)
  : gmap string Q :=
  foldl (record_yield target) ∅ (crops self).

(** The yield credited to [target]: for every entry of the mapping, its
    attributed yield times all the planting-week variables of the entry. *)
Definition contributing_sum (self : Garden) (target : string)
  : LpAffineExpression :=
  lpSum ((fun cy : string * Q =>
            Scale cy.2 (lpSum_vars (planting cy.1
                                      <$> interval 0 (weeks (garden self) - 1))))
           <$> dict_items (target_yields_of self target)).

(** The constraints of one yield target. *)
Definition yield_block (self : Garden) (total_yield : LpAffineExpression)
  (yield_spec : YieldSpec) : list (string * LpConstraint) :=
  [(plant yield_spec +:+ "_min_yield",
    {| lhs := contributing_sum self (plant yield_spec);
       sense := LpConstraintGE;
       rhs := Const (min_yield yield_spec) |})]
  ++ match max_yield yield_spec with
     | Some m => [(plant yield_spec +:+ "_max_yield",
                   {| lhs := contributing_sum self (plant yield_spec);
                      sense := LpConstraintLE;
                      rhs := Const m |})]
     | None => []
     end
  ++ match max_yield_pct yield_spec with
     | Some pct => [(plant yield_spec +:+ "_max_yield_percent",
                     {| lhs := contributing_sum self (plant yield_spec);
                        sense := LpConstraintLE;
                        rhs := Scale pct total_yield |})]
     | None => []
     end.

(** All the constraints of the model, in order. *)
Definition model_constraints (self : Garden) : list (string * LpConstraint) :=
  (range 0 (weeks (garden self)) ≫= week_block self)
  ++ (yields (garden self) ≫= yield_block self (total_yield_of self))
  ++ latest_planting_block (weeks (garden self)) (crops self)
  ++ [nitrogen_constraint self].


(** ** Notions for the report *)

(** The parts joined by hyphens: ["-".join(parts)]. *)
Fixpoint join_hyphen (parts : list string) : string :=
  match parts with
  | [] => EmptyString
  | [part] => part
  | part :: parts' => part +:+ "-" +:+ join_hyphen parts'
  end.

(** The two instructions that a cell of the plantings sheet can hold, for a
    crop of lifespan [lifespan_] in week [w], under the solution [x]. *)
Definition plant_instruction (x : LpVariable -> Q) (round_ : Q -> Z -> Q)
  (c : string) (w : Z) : list Instruction :=
  if decide (1#10 <= x (planting c w))%Q
  then [Plant (round_ (x (planting c w)) 1)] else [].

Definition harvest_instruction (x : LpVariable -> Q) (round_ : Q -> Z -> Q)
  (c : string) (lifespan_ w : Z) : list Instruction :=
  if decide (0 ≤ w + 1 - lifespan_
             ∧ (1#10 < x (planting c (w + 1 - lifespan_)))%Q)
  then [Harvest (round_ (x (planting c (w + 1 - lifespan_))) 1)
          (w + 1 - lifespan_)]
  else [].

(** A solution of the model of [lettuce_garden]: 50.5 sqft of lettuce
    planted in week 0, the rest of the garden fallow. *)
Definition lettuce_solution (v : LpVariable) : Q :=
  match v with
  | planted key => if decide (key = "lettuce_week_0") then 101#2 else 0
  | fallow w => if decide (w = 0 ∨ w = 1) then 99#2 else 100
  end.

(** * Properties *)

(** ** The error monad and the loops *)

Lemma comprehension_Ok {A B : Type} (f : A -> Result B) (g : A -> B)
  (l : list A) :
  (∀ a, a ∈ l → f a = Ok (g a)) → comprehension f l = Ok (g <$> l).
Proof.
  induction l as [|a l IH]; intros Hf; [reflexivity|].
  cbn [comprehension fmap list_fmap].
  rewrite (Hf a) by apply list_elem_of_here. cbn.
  rewrite IH by (intros b Hb; apply Hf; by apply list_elem_of_further).
  reflexivity.
Qed.

Lemma comprehension_getitem_Ok `{Countable K} {V : Type} (m : gmap K V)
  (g : K -> V) (l : list K) :
  (∀ k, k ∈ l → m !! k = Some (g k)) →
  comprehension (fun k => getitem (m !! k)) l = Ok (g <$> l).
Proof.
  intros Hm. apply comprehension_Ok. intros k Hk. by rewrite (Hm k Hk).
Qed.

(** A loop whose body appends to its accumulator. *)
Lemma for_append {A B : Type} (body : list B -> A -> Result (list B))
  (f : A -> list B) (l : list A) (acc : list B) :
  (∀ a acc', a ∈ l → body acc' a = Ok (acc' ++ f a)) →
  for_ l body acc = Ok (acc ++ (l ≫= f)).
Proof.
  revert acc. induction l as [|a l IH]; intros acc Hbody.
  - cbn. by rewrite app_nil_r.
  - cbn [for_]. rewrite Hbody by apply list_elem_of_here. cbn.
    rewrite IH by (intros b acc' Hb; apply Hbody; by apply list_elem_of_further).
    by rewrite <- app_assoc.
Qed.

(** A loop whose body cannot raise. *)
Lemma for_pure {S A : Type} (body : S -> A -> Result S) (step : S -> A -> S)
  (l : list A) (s : S) :
  (∀ a s', a ∈ l → body s' a = Ok (step s' a)) →
  for_ l body s = Ok (foldl step s l).
Proof.
  revert s. induction l as [|a l IH]; intros s Hbody; [reflexivity|].
  cbn [for_ foldl]. rewrite Hbody by apply list_elem_of_here. cbn.
  apply IH. intros b s' Hb. apply Hbody. by apply list_elem_of_further.
Qed.

Lemma filter_none {A : Type} (P : A -> Prop) `{!∀ x, Decision (P x)}
  (l : list A) :
  (∀ x, x ∈ l → ¬ P x) → filter P l = [].
Proof.
  induction l as [|a l IH]; intros Hnone; [reflexivity|].
  rewrite filter_cons_False by (apply Hnone, list_elem_of_here).
  apply IH. intros x Hx. apply Hnone. by apply list_elem_of_further.
Qed.

(** ** Intervals *)

Lemma range_interval (a b : Z) : range a b = interval a (b - 1).
Proof. unfold range, interval. f_equal. lia. Qed.

Lemma elem_of_interval (lo hi p : Z) : p ∈ interval lo hi ↔ lo ≤ p ≤ hi.
Proof. unfold interval. rewrite elem_of_seqZ. lia. Qed.

Lemma NoDup_interval (lo hi : Z) : NoDup (interval lo hi).
Proof. apply NoDup_seqZ. Qed.

Lemma interval_cons (lo hi : Z) :
  lo ≤ hi → interval lo hi = lo :: interval (lo + 1) hi.
Proof.
  intros Hle. unfold interval. rewrite seqZ_cons by lia.
  do 2 f_equal; lia.
Qed.

Lemma interval_nil (lo hi : Z) : hi < lo → interval lo hi = [].
Proof. intros Hlt. unfold interval. apply seqZ_nil. lia. Qed.

(** ** The Temporal Overlap Resolver *)

Lemma get_plants_living_in_week_interval (crop : Crop) (w : Z)
  (plant_vars : gmap string LpVariable) (var : Z -> LpVariable) :
  (∀ p, Z.max 0 (w - lifespan crop + 1) ≤ p ≤ w →
        plant_vars !! get_plant_variable_name (name crop) p = Some (var p)) →
  get_plants_living_in_week crop w plant_vars = Ok (var <$> alive_weeks crop w).
Proof.
  intros Hvars. unfold get_plants_living_in_week, alive_weeks.
  assert ((if decide (w - lifespan crop + 1 < 0) then 0
           else w - lifespan crop + 1) = Z.max 0 (w - lifespan crop + 1))
    as -> by (case_decide; lia).
  unfold get_variable_names_for_weeks.
  rewrite range_interval. replace (w + 1 - 1) with w by lia.
  set (lo := Z.max 0 (w - lifespan crop + 1)) in *.
  rewrite (comprehension_getitem_Ok plant_vars
             (fun k => default (planted k)
                         (plant_vars !! k))).
  - f_equal. rewrite <- list_fmap_compose. apply list_fmap_ext.
    intros i p Hp. cbn.
    apply list_elem_of_lookup_2, elem_of_interval in Hp.
    by rewrite (Hvars p Hp).
  - intros k Hk. apply list_elem_of_fmap in Hk as (p & -> & Hp).
    apply elem_of_interval in Hp. by rewrite (Hvars p Hp).
Qed.

(** ** Yield Attribution *)

Lemma Garden_wf_elem (self : Garden) (c : Crop) :
  Garden_wf self → c ∈ crops self → crop_wf c = true.
Proof.
  unfold Garden_wf. rewrite forallb_forall. intros Hwf Hc.
  apply Hwf. by apply list_elem_of_In.
Qed.

Lemma crop_wf_compound (c : Crop) :
  crop_wf c = true → is_compound c = true →
  ∃ n1 n2 y1 y2, plant_1_name c = Some n1 ∧ plant_2_name c = Some n2
                 ∧ plant_1_yield c = Some y1 ∧ plant_2_yield c = Some y2.
Proof.
  unfold crop_wf. intros Hwf Hc. rewrite Hc in Hwf. cbn in Hwf.
  repeat (apply andb_prop in Hwf as [Hwf ?]).
  repeat match goal with
         | H : bool_decide _ = true |- _ => apply bool_decide_eq_true in H as [? ?]
         end.
  eauto 10.
Qed.

Lemma get_target_yields_fold (self : Garden) (target : string) :
  Garden_wf self →
  get_target_yields self target
    = Ok (foldl (record_yield target) ∅ (crops self)).
Proof.
  intros Hwf. unfold get_target_yields. apply for_pure.
  intros c ys Hc. unfold record_yield, attributed.
  destruct (is_compound c) eqn:Hcomp; cbn [negb].
  - destruct (crop_wf_compound c (Garden_wf_elem self c Hwf Hc) Hcomp)
      as (n1 & n2 & y1 & y2 & H1 & H2 & H3 & H4).
    rewrite H1, H2, H3, H4. cbn.
    destruct (decide (n1 = target)) as [->|Hn1].
    + by rewrite decide_True.
    + rewrite (decide_False (P := Some n1 = Some target)) by congruence.
      destruct (decide (n2 = target)) as [->|Hn2].
      * by rewrite decide_True.
      * by rewrite (decide_False (P := Some n2 = Some target)) by congruence.
  - by destruct (decide (name c = target)).
Qed.

Lemma record_yield_lookup_ne (target : string) (ys : gmap string Q)
  (c : Crop) (k : string) :
  name c ≠ k → record_yield target ys c !! k = ys !! k.
Proof.
  intros Hne. unfold record_yield.
  destruct (attributed target c); [by rewrite lookup_insert_ne|done].
Qed.

Lemma fold_record_yield_other (target : string) (l : list Crop)
  (ys : gmap string Q) (k : string) :
  k ∉ name <$> l → foldl (record_yield target) ys l !! k = ys !! k.
Proof.
  revert ys. induction l as [|a l IH]; intros ys Hk; [done|].
  rewrite fmap_cons, not_elem_of_cons in Hk. destruct Hk as [Hka Hkl].
  cbn [foldl]. rewrite IH by done. by apply record_yield_lookup_ne.
Qed.

Lemma fold_record_yield_entry (target : string) (l : list Crop)
  (ys : gmap string Q) (c : Crop) :
  NoDup (name <$> l) → c ∈ l →
  foldl (record_yield target) ys l !! name c
    = match attributed target c with
      | Some y => Some y
      | None => ys !! name c
      end.
Proof.
  revert ys. induction l as [|a l IH]; intros ys Hnd Hc.
  { by apply elem_of_nil in Hc. }
  rewrite fmap_cons in Hnd. apply list.NoDup_cons in Hnd as [Ha Hnd].
  cbn [foldl]. apply elem_of_cons in Hc as [->|Hc].
  - rewrite fold_record_yield_other by done. unfold record_yield.
    destruct (attributed target a); [by rewrite lookup_insert_eq|done].
  - rewrite IH by done. destruct (attributed target c); [done|].
    apply record_yield_lookup_ne. intros Heq. apply Ha. rewrite Heq.
    by apply list_elem_of_fmap_2.
Qed.

(** ** Loops that collect what they compute *)

Lemma for_ext {S A : Type} (body1 body2 : S -> A -> Result S)
  (l : list A) (s : S) :
  (∀ s' a, a ∈ l → body1 s' a = body2 s' a) →
  for_ l body1 s = for_ l body2 s.
Proof.
  revert s. induction l as [|a l IH]; intros s Hext; [reflexivity|].
  cbn [for_]. rewrite Hext by apply list_elem_of_here.
  destruct (body2 s a) as [s'|e]; cbn; [|reflexivity].
  apply IH. intros s'' b Hb. apply Hext. by apply list_elem_of_further.
Qed.

Lemma for_collect_one {A B : Type} (f : A -> Result B) (l : list A)
  (acc : list B) :
  for_ l (fun acc a => c ← f a; Ok (acc ++ [c])) acc
  = (ys ← comprehension f l; Ok (acc ++ ys)).
Proof.
  revert acc. induction l as [|a l IH]; intros acc.
  - cbn. by rewrite app_nil_r.
  - cbn [for_ comprehension]. destruct (f a) as [c|e]; cbn; [|reflexivity].
    rewrite IH. destruct (comprehension f l) as [ys|e]; cbn; [|reflexivity].
    by rewrite <- app_assoc.
Qed.

Lemma for_collect {A B : Type} (F : A -> Result (list B)) (l : list A)
  (acc : list B) :
  for_ l (fun acc a => ys ← F a; Ok (acc ++ ys)) acc
  = (yss ← comprehension F l; Ok (acc ++ concat yss)).
Proof.
  revert acc. induction l as [|a l IH]; intros acc.
  - cbn. by rewrite app_nil_r.
  - cbn [for_ comprehension]. destruct (F a) as [ys|e]; cbn; [|reflexivity].
    rewrite IH. destruct (comprehension F l) as [yss|e]; cbn; [|reflexivity].
    by rewrite <- app_assoc.
Qed.

Lemma comprehension_ext {A B : Type} (f g : A -> Result B) (l : list A) :
  (∀ a, a ∈ l → f a = g a) → comprehension f l = comprehension g l.
Proof.
  induction l as [|a l IH]; intros Hext; [reflexivity|].
  cbn [comprehension]. rewrite Hext by apply list_elem_of_here.
  rewrite IH; [reflexivity|].
  intros b Hb. apply Hext. by apply list_elem_of_further.
Qed.

Lemma comprehension_fmap {A B C : Type} (f : B -> Result C) (g : A -> B)
  (l : list A) :
  comprehension f (g <$> l) = comprehension (fun a => f (g a)) l.
Proof.
  induction l as [|a l IH]; [reflexivity|].
  cbn [comprehension fmap list_fmap]. fold (g <$> l). by rewrite IH.
Qed.

Lemma comprehension_Forall2 {A B : Type} (f : A -> Result B) (l : list A)
  (ys : list B) :
  comprehension f l = Ok ys → Forall2 (fun a y => f a = Ok y) l ys.
Proof.
  revert ys. induction l as [|a l IH]; intros ys Hys.
  - cbn in Hys. injection Hys as <-. constructor.
  - cbn [comprehension] in Hys. destruct (f a) as [y|e] eqn:Hy; cbn in Hys;
      [|discriminate].
    destruct (comprehension f l) as [ys'|e] eqn:Hys'; cbn in Hys;
      [|discriminate].
    injection Hys as <-. constructor; [exact Hy|by apply IH].
Qed.

(** ** The Catalog Expander *)

Lemma generate_compound_crops_collect (base : list Crop) :
  generate_compound_crops base
  = (yss ← comprehension (fun C =>
              comprehension (compound_crop C)
                (filter (names_companion C) base)) base;
     Ok (concat yss)).
Proof.
  unfold generate_compound_crops.
  rewrite (for_ext _ (fun acc C =>
             ys ← comprehension (compound_crop C)
                    (filter (names_companion C) base);
             Ok (acc ++ ys))).
  - by rewrite for_collect.
  - intros acc C _. cbn zeta. apply for_collect_one.
Qed.

Lemma compound_crop_entry (C P e : Crop) :
  compound_crop C P = Ok e → compound_entry_of C P e.
Proof.
  unfold compound_crop, floordiv.
  destruct (decide (lifespan C = 0)); [discriminate|].
  destruct (decide (lifespan P = 0)); [discriminate|].
  cbn. intros [= <-]. unfold compound_entry_of. cbn. by split_and!.
Qed.

Lemma compound_crop_Ok (C P : Crop) :
  lifespan C ≠ 0 → lifespan P ≠ 0 → ∃ e, compound_crop C P = Ok e.
Proof.
  intros HC HP. unfold compound_crop, floordiv.
  rewrite !decide_False by done. cbn. eauto.
Qed.

Lemma comprehension_total {A B : Type} (f : A -> Result B) (l : list A) :
  (∀ a, a ∈ l → ∃ b, f a = Ok b) → ∃ ys, comprehension f l = Ok ys.
Proof.
  induction l as [|a l IH]; intros Hf; [by eexists|].
  destruct (Hf a) as [b Hb]; [apply list_elem_of_here|].
  destruct IH as [ys Hys].
  { intros a' Ha'. apply Hf. by apply list_elem_of_further. }
  exists (b :: ys). cbn [comprehension]. rewrite Hb. cbn. by rewrite Hys.
Qed.

(** *** Positions and ordered pairs *)

Lemma elem_of_positions {A : Type} (P : A -> Prop) `{!∀ x, Decision (P x)}
  (l : list A) (j : nat) :
  j ∈ positions P l ↔ ∃ x, l !! j = Some x ∧ P x.
Proof.
  revert j. induction l as [|a l IH]; intros j; cbn [positions].
  - rewrite elem_of_nil. split; [done|]. by intros (x & Hx & _).
  - rewrite elem_of_app, list_elem_of_fmap. split.
    + intros [Hj|(j' & -> & Hj')].
      * destruct (decide (P a)); [|by apply elem_of_nil in Hj].
        apply list_elem_of_singleton in Hj as ->. by exists a.
      * apply IH in Hj' as (x & Hx & HP). by exists x.
    + intros (x & Hx & HP). destruct j as [|j'].
      * left. injection Hx as ->. rewrite decide_True by done.
        apply list_elem_of_here.
      * right. exists j'. split; [done|]. apply IH. by exists x.
Qed.

Lemma NoDup_positions {A : Type} (P : A -> Prop) `{!∀ x, Decision (P x)}
  (l : list A) :
  NoDup (positions P l).
Proof.
  induction l as [|a l IH]; cbn [positions]; [by apply list.NoDup_nil|].
  apply list.NoDup_app. split_and!.
  - destruct (decide (P a)); [apply NoDup_singleton|by apply list.NoDup_nil].
  - intros j Hj Hj'. destruct (decide (P a)); [|by apply elem_of_nil in Hj].
    apply list_elem_of_singleton in Hj as ->.
    apply list_elem_of_fmap in Hj' as (j' & Hj' & _). discriminate.
  - by apply (NoDup_fmap_2 S).
Qed.

Lemma positions_filter {A : Type} (P : A -> Prop) `{!∀ x, Decision (P x)}
  (l : list A) :
  Forall2 (fun j x => l !! j = Some x) (positions P l) (filter P l).
Proof.
  induction l as [|a l IH]; cbn [positions]; [constructor|].
  rewrite filter_cons. destruct (decide (P a)); cbn [app].
  - constructor; [done|]. by apply Forall2_fmap_l.
  - by apply Forall2_fmap_l.
Qed.

Lemma Forall2_compose {A B C : Type} (R1 : A -> B -> Prop)
  (R2 : B -> C -> Prop) (l1 : list A) (l2 : list B) (l3 : list C) :
  Forall2 R1 l1 l2 → Forall2 R2 l2 l3 →
  Forall2 (fun a c => ∃ b, R1 a b ∧ R2 b c) l1 l3.
Proof.
  intros H12. revert l3. induction H12 as [|a b l1 l2 Hab _ IH]; intros l3 H23.
  - apply Forall2_nil_inv_l in H23 as ->. constructor.
  - apply Forall2_cons_inv_l in H23 as (c & l3' & Hbc & H23 & ->).
    constructor; [by exists b|by apply IH].
Qed.

Lemma drop_cons_lookup {A : Type} (l : list A) (k : nat) (x : A)
  (rest : list A) :
  drop k l = x :: rest → l !! k = Some x ∧ drop (S k) l = rest.
Proof.
  intros Hdrop. split.
  - rewrite <- (Nat.add_0_r k), <- lookup_drop, Hdrop. reflexivity.
  - replace (S k) with (k + 1)%nat by lia.
    by rewrite <- drop_drop, Hdrop.
Qed.

Lemma elem_of_companion_pairs_from (k : nat) (rest base : list Crop)
  (i j : nat) :
  drop k base = rest →
  (i, j) ∈ companion_pairs_from k rest base
  ↔ (k ≤ i)%nat ∧ ∃ C P, base !! i = Some C ∧ base !! j = Some P
                          ∧ names_companion C P.
Proof.
  revert k. induction rest as [|C rest IH]; intros k Hdrop;
    cbn [companion_pairs_from].
  - rewrite elem_of_nil. split; [done|].
    intros (Hk & C & P & HC & _). apply drop_nil_inv in Hdrop.
    apply lookup_lt_Some in HC. lia.
  - apply drop_cons_lookup in Hdrop as [HkC Hdrop].
    rewrite elem_of_app, list_elem_of_fmap, (IH (S k) Hdrop). split.
    + intros [(j' & [= -> ->] & Hj')|(Hk & HCP)].
      * split; [done|]. apply elem_of_positions in Hj' as (P & HP & Hnc).
        by exists C, P.
      * split; [lia|done].
    + intros (Hk & C' & P & HC' & HP & Hnc).
      destruct (decide (i = k)) as [->|Hne].
      * left. exists j. split; [done|]. apply elem_of_positions.
        exists P. split; [done|]. congruence.
      * right. split; [lia|]. by exists C', P.
Qed.

Lemma NoDup_companion_pairs_from (k : nat) (rest base : list Crop) :
  drop k base = rest → NoDup (companion_pairs_from k rest base).
Proof.
  revert k. induction rest as [|C rest IH]; intros k Hdrop;
    cbn [companion_pairs_from]; [by apply list.NoDup_nil|].
  apply drop_cons_lookup in Hdrop as [HkC Hdrop].
  apply list.NoDup_app. split_and!.
  - apply (NoDup_fmap_2 (pair k)), NoDup_positions.
  - intros [i j] Hij Hij'.
    apply list_elem_of_fmap in Hij as (j' & [= -> ->] & _).
    apply (elem_of_companion_pairs_from (S k) rest base) in Hij' as [Hlt _];
      [lia|done].
  - by apply IH.
Qed.

Lemma companion_pairs_from_entries (k : nat) (rest base : list Crop)
  (yss : list (list Crop)) :
  drop k base = rest →
  Forall2 (fun C ys =>
             comprehension (compound_crop C)
               (filter (names_companion C) base) = Ok ys) rest yss →
  Forall2 (fun ij e =>
             ∃ C P, base !! ij.1 = Some C ∧ base !! ij.2 = Some P
                    ∧ compound_entry_of C P e)
    (companion_pairs_from k rest base) (concat yss).
Proof.
  intros Hdrop Hyss. revert k Hdrop.
  induction Hyss as [|C ys rest yss HC _ IH]; intros k Hdrop;
    cbn [companion_pairs_from concat]; [constructor|].
  apply drop_cons_lookup in Hdrop as [HkC Hdrop].
  apply Forall2_app; [|by apply IH].
  apply Forall2_fmap_l. apply comprehension_Forall2 in HC.
  pose proof (Forall2_compose _ _ _ _ _
                (positions_filter (names_companion C) base) HC) as Hjs.
  eapply Forall2_impl; [|exact Hjs].
  intros j e (P & HP & He). cbn. exists C, P.
  split_and!; [done..|]. by apply compound_crop_entry.
Qed.

(** The companion pair of the design document: A (lifespan 4, yield 10)
    and B (lifespan 2, yield 3) name each other; "A-B" and "B-A" both
    exist, and A's unmatched companion leaves no entry. *)
Example Garden_init_A_B :
  ∃ ab ba : Crop,
    Garden_init lettuce_params [crop_A; crop_B]
      = Ok {| crops := [crop_A; crop_B; ab; ba]; garden := lettuce_params |}
    ∧ name ab = "A-B" ∧ lifespan ab = 4
    ∧ plant_1_yield ab = Some 10%Q ∧ plant_2_yield ab = Some 6%Q
    ∧ yield ab = 16%Q
    ∧ name ba = "B-A" ∧ lifespan ba = 4
    ∧ plant_1_yield ba = Some 6%Q ∧ plant_2_yield ba = Some 10%Q
    ∧ yield ba = 16%Q.
Proof.
  do 2 eexists. split; [vm_compute; reflexivity|]. cbn. by split_and!.
Qed.

(** *** Companions that name no crop *)

Lemma elem_of_concat {A : Type} (x : A) (ls : list (list A)) :
  x ∈ concat ls ↔ ∃ l, x ∈ l ∧ l ∈ ls.
Proof.
  induction ls as [|l ls IH]; cbn [concat].
  - rewrite elem_of_nil. split; [done|]. intros (l & _ & Hl).
    by apply elem_of_nil in Hl.
  - rewrite elem_of_app, IH. split.
    + intros [Hx|(l' & Hx & Hl')].
      * exists l. split; [done|apply list_elem_of_here].
      * exists l'. split; [done|by apply list_elem_of_further].
    + intros (l' & Hx & Hl'). apply elem_of_cons in Hl' as [->|Hl'];
        [by left|right; by exists l'].
Qed.

Lemma Forall2_elem_of_r {A B : Type} (R : A -> B -> Prop) (l : list A)
  (k : list B) (y : B) :
  Forall2 R l k → y ∈ k → ∃ x, x ∈ l ∧ R x y.
Proof.
  intros HR Hy. apply list_elem_of_lookup in Hy as [i Hi].
  destruct (Forall2_lookup_r _ _ _ _ _ HR Hi) as (x & Hx & Hxy).
  exists x. split; [by eapply list_elem_of_lookup_2|done].
Qed.

Lemma filter_fmap_in {A B : Type} (P : B -> Prop) (Q : A -> Prop)
  `{!∀ b, Decision (P b), !∀ a, Decision (Q a)} (f : A -> B) (l : list A) :
  (∀ a, a ∈ l → P (f a) ↔ Q a) → filter P (f <$> l) = f <$> filter Q l.
Proof.
  induction l as [|a l IH]; intros HPQ; [reflexivity|].
  rewrite fmap_cons. pose proof (HPQ a (list_elem_of_here _ _)) as Ha.
  assert (filter P (f <$> l) = f <$> filter Q l) as IH'.
  { apply IH. intros b Hb. apply HPQ. by apply list_elem_of_further. }
  destruct (decide (Q a)) as [HQ|HQ].
  - rewrite !filter_cons_True by tauto. by rewrite fmap_cons, IH'.
  - rewrite !filter_cons_False by tauto. exact IH'.
Qed.

Lemma generate_compound_crops_elem (base compound : list Crop) (e : Crop) :
  generate_compound_crops base = Ok compound → e ∈ compound →
  ∃ C P, C ∈ base ∧ P ∈ base ∧ names_companion C P
         ∧ compound_crop C P = Ok e.
Proof.
  rewrite generate_compound_crops_collect.
  destruct (comprehension _ base) as [yss|ex] eqn:Hyss; cbn; [|discriminate].
  intros [= <-] He. apply elem_of_concat in He as (ys & He & Hys).
  apply comprehension_Forall2 in Hyss.
  destruct (Forall2_elem_of_r _ _ _ _ Hyss Hys) as (C & HC & HCys).
  apply comprehension_Forall2 in HCys.
  destruct (Forall2_elem_of_r _ _ _ _ HCys He) as (P & HP & HCP).
  apply list_elem_of_filter in HP as [Hnc HP]. by exists C, P.
Qed.

Lemma generate_compound_crops_without_unmatched (plants : list Crop) :
  generate_compound_crops
    (set_not_compound <$> (without_unmatched (name <$> plants) <$> plants))
  = generate_compound_crops (set_not_compound <$> plants).
Proof.
  set (names := name <$> plants).
  set (h := fun p => set_not_compound (without_unmatched names p)).
  rewrite <- (list_fmap_compose (without_unmatched names) set_not_compound).
  change (set_not_compound ∘ without_unmatched names) with h.
  rewrite !generate_compound_crops_collect. f_equal.
  rewrite !comprehension_fmap. apply comprehension_ext. intros p Hp.
  rewrite (filter_fmap_in (names_companion (h p))
             (fun q => name q ∈ companions p) h plants).
  - rewrite (filter_fmap_in (names_companion (set_not_compound p))
               (fun q => name q ∈ companions p) set_not_compound plants)
      by done.
    rewrite !comprehension_fmap. by apply comprehension_ext.
  - intros q Hq. unfold names_companion, h. cbn.
    rewrite list_elem_of_filter. split; [tauto|].
    intros Hin. split; [|done]. by apply list_elem_of_fmap_2.
Qed.

(** ** The variables of the model *)

Lemma foldl_insert_lookup `{Countable K} {V : Type} (f : K -> V)
  (l : list K) (m : gmap K V) (k : K) :
  foldl (fun d i => <[i := f i]> d) m l !! k
  = if decide (k ∈ l) then Some (f k) else m !! k.
Proof.
  revert m. induction l as [|a l IH]; intros m; cbn [foldl].
  - rewrite decide_False; [done|apply not_elem_of_nil].
  - rewrite IH. destruct (decide (k ∈ l)) as [Hk|Hk].
    + rewrite decide_True; [done|by apply list_elem_of_further].
    + destruct (decide (k = a)) as [->|Hne].
      * rewrite decide_True by apply list_elem_of_here.
        by rewrite lookup_insert_eq.
      * rewrite decide_False by (rewrite elem_of_cons; tauto).
        by rewrite lookup_insert_ne.
Qed.

Lemma LpVariable_dicts_lookup `{Countable K} (family : K -> LpVariable)
  (indices : list K) (k : K) :
  k ∈ indices → LpVariable_dicts family indices !! k = Some (family k).
Proof.
  intros Hk. unfold LpVariable_dicts.
  by rewrite foldl_insert_lookup, decide_True.
Qed.

Lemma elem_of_range (a b p : Z) : p ∈ range a b ↔ a ≤ p < b.
Proof. unfold range. rewrite elem_of_seqZ. lia. Qed.

Lemma elem_of_get_plant_weeks (self : Garden) (n : string) (p : Z) :
  n ∈ get_plants self → 0 ≤ p < weeks (garden self) →
  get_plant_variable_name n p ∈ get_plant_weeks self.
Proof.
  intros Hn Hp. unfold get_plant_weeks. apply list_elem_of_bind.
  exists n. split; [|done].
  apply list_elem_of_fmap. exists p. split; [done|].
  by apply elem_of_range.
Qed.

Lemma plant_vars_of_lookup (self : Garden) (n : string) (p : Z) :
  n ∈ get_plants self → 0 ≤ p < weeks (garden self) →
  plant_vars_of self !! get_plant_variable_name n p = Some (planting n p).
Proof.
  intros Hn Hp. unfold plant_vars_of, planting.
  by apply LpVariable_dicts_lookup, elem_of_get_plant_weeks.
Qed.

Lemma fallow_vars_of_lookup (num_weeks w : Z) :
  0 ≤ w < num_weeks → fallow_vars_of num_weeks !! w = Some (fallow w).
Proof.
  intros Hw. unfold fallow_vars_of.
  by apply LpVariable_dicts_lookup, elem_of_range.
Qed.

Lemma elem_of_get_plants (self : Garden) (c : Crop) :
  c ∈ crops self → name c ∈ get_plants self.
Proof. intros Hc. unfold get_plants. by apply list_elem_of_fmap_2. Qed.

(** Inside the horizon the Temporal Overlap Resolver cannot raise. *)
Lemma get_plants_living_in_week_model (self : Garden) (c : Crop) (w : Z) :
  c ∈ crops self → w < weeks (garden self) →
  get_plants_living_in_week c w (plant_vars_of self) = Ok (alive_vars c w).
Proof.
  intros Hc Hw. unfold alive_vars.
  apply get_plants_living_in_week_interval. intros p Hp.
  apply plant_vars_of_lookup; [by apply elem_of_get_plants|lia].
Qed.

Lemma planted_vars_model (self : Garden) (n : string) :
  n ∈ get_plants self →
  comprehension (fun v => getitem (plant_vars_of self !! v))
    (get_variable_names_for_weeks n 0 (weeks (garden self)))
  = Ok (planting n <$> interval 0 (weeks (garden self) - 1)).
Proof.
  intros Hn. unfold get_variable_names_for_weeks. rewrite range_interval.
  rewrite comprehension_fmap.
  apply (comprehension_Ok _ (planting n)). intros p Hp.
  apply elem_of_interval in Hp.
  rewrite plant_vars_of_lookup by (done || lia). reflexivity.
Qed.

Lemma get_weeks_for_plant_names (self : Garden) (c : Crop) :
  get_weeks_for_plant self c
  = get_variable_names_for_weeks (name c) 0 (weeks (garden self)).
Proof. reflexivity. Qed.

(** ** Problems that grow *)

Lemma add_constraint_extend (prob : LpProblem) (c : LpConstraint)
  (n : string) :
  add_constraint prob c n = extend prob [(n, c)].
Proof. reflexivity. Qed.

Lemma extend_extend (prob : LpProblem) (cs1 cs2 : list (string * LpConstraint)) :
  extend (extend prob cs1) cs2 = extend prob (cs1 ++ cs2).
Proof. unfold extend. cbn. by rewrite <- app_assoc. Qed.

Lemma extend_nil (prob : LpProblem) : extend prob [] = prob.
Proof. destruct prob. unfold extend. cbn. by rewrite app_nil_r. Qed.

Lemma for_extend {A : Type} (body : LpProblem -> A -> Result LpProblem)
  (f : A -> list (string * LpConstraint)) (l : list A) (prob : LpProblem) :
  (∀ a prob', a ∈ l → body prob' a = Ok (extend prob' (f a))) →
  for_ l body prob = Ok (extend prob (l ≫= f)).
Proof.
  revert prob. induction l as [|a l IH]; intros prob Hbody.
  - cbn. by rewrite extend_nil.
  - cbn [for_]. rewrite Hbody by apply list_elem_of_here. cbn.
    rewrite IH by (intros b prob' Hb; apply Hbody; by apply list_elem_of_further).
    by rewrite extend_extend.
Qed.


Lemma bind_singleton {A B : Type} (f : A -> B) (l : list A) :
  l ≫= (fun x => [f x]) = f <$> l.
Proof.
  induction l as [|a l IH]; [reflexivity|].
  cbn. by f_equal.
Qed.

Lemma bind_filter {A B : Type} (b : A -> bool) (f : A -> B) (l : list A) :
  l ≫= (fun x => if b x then [] else [f x])
  = f <$> filter (fun x => b x = false) l.
Proof.
  induction l as [|a l IH]; [reflexivity|].
  rewrite filter_cons. cbn. rewrite IH.
  destruct (b a); [by rewrite decide_False|by rewrite decide_True].
Qed.

(** ** The constraints of one week *)

Lemma water_demand_model (self : Garden) (cs : list Crop) (w : Z) :
  (∀ c, c ∈ cs → c ∈ crops self) → w < weeks (garden self) →
  comprehension (fun c =>
      living ← get_plants_living_in_week c w (plant_vars_of self);
      Ok (Scale (water_use c) (lpSum_vars living))) cs
  = Ok ((fun c => Scale (water_use c) (lpSum_vars (alive_vars c w))) <$> cs).
Proof.
  intros Hcs Hw. apply comprehension_Ok. intros c Hc.
  by rewrite (get_plants_living_in_week_model self c w (Hcs c Hc) Hw).
Qed.

Lemma week_constraints_model (self : Garden) (prob : LpProblem) (w : Z) :
  0 ≤ w < weeks (garden self) →
  week_constraints self (plant_vars_of self)
    (fallow_vars_of (weeks (garden self))) prob w
  = Ok (extend prob (week_block self w)).
Proof.
  intros Hw. unfold week_constraints.
  rewrite (for_append _ (fun c => [lpSum_vars (alive_vars c w)])).
  2:{ intros c acc Hc.
      by rewrite (get_plants_living_in_week_model self c w Hc) by lia. }
  cbn [mbind Result_bind app]. rewrite bind_singleton.
  rewrite fallow_vars_of_lookup by done. cbn [getitem mbind Result_bind].
  rewrite (water_demand_model self (get_greywater_plants self) w)
    by (try lia; intros c Hc; by apply list_elem_of_filter in Hc as [_ Hc]).
  cbn [mbind Result_bind].
  rewrite (water_demand_model self (crops self) w) by (done || lia).
  cbn [mbind Result_bind]. f_equal.
  rewrite !add_constraint_extend, !extend_extend. reflexivity.
Qed.

(** ** The latest planting *)

Lemma alive_weeks_final (num_weeks : Z) (c : Crop) :
  alive_weeks c (num_weeks - 1)
  = interval (Z.max 0 (num_weeks - lifespan c)) (num_weeks - 1).
Proof. unfold alive_weeks. f_equal. lia. Qed.

Lemma length_interval (lo hi : Z) :
  length (interval lo hi) = Z.to_nat (hi - lo + 1).
Proof. unfold interval. apply length_seqZ. Qed.

Lemma latest_planting_model (self : Garden) (prob : LpProblem) (c : Crop) :
  c ∈ crops self →
  latest_planting (weeks (garden self)) (plant_vars_of self) prob c
  = Ok (extend prob
          (if is_cover_crop c then []
           else [latest_planting_constraint (weeks (garden self)) c])).
Proof.
  intros Hc. unfold latest_planting.
  destruct (is_cover_crop c); cbn [negb]; [by rewrite extend_nil|].
  rewrite (get_plants_living_in_week_model self c _ Hc) by lia.
  cbn [mbind Result_bind]. rewrite add_constraint_extend.
  do 3 f_equal. unfold latest_planting_constraint. do 3 f_equal.
  unfold too_late_weeks, alive_vars. rewrite length_fmap.
  rewrite alive_weeks_final, length_interval.
  set (nw := weeks (garden self)). set (L := lifespan c).
  destruct (decide (1 ≤ L ≤ nw)) as [HL|HL].
  - rewrite decide_True by lia.
    replace (Z.max 0 (nw - L)) with (nw - L) by lia.
    rewrite (interval_cons (nw - L)) by lia. reflexivity.
  - rewrite decide_False; [reflexivity|]. lia.
Qed.

(** ** The yield targets *)

Lemma get_target_yields_keys (self : Garden) (target : string)
  (ys : gmap string Q) (c : string) (y : Q) :
  Garden_wf self → get_target_yields self target = Ok ys →
  (c, y) ∈ dict_items ys → c ∈ get_plants self.
Proof.
  intros Hwf. rewrite get_target_yields_fold by done. intros [= <-] Hcy.
  unfold dict_items in Hcy. apply elem_of_map_to_list in Hcy.
  unfold get_plants. destruct (decide (c ∈ name <$> crops self)); [done|].
  rewrite fold_record_yield_other, lookup_empty in Hcy by done.
  discriminate.
Qed.


(** ** The whole model *)

Lemma yield_terms_model (self : Garden) (coefficient : Crop -> Q) :
  comprehension (fun c =>
      vs ← comprehension (fun v => getitem (plant_vars_of self !! v))
             (get_variable_names_for_weeks (name c) 0 (weeks (garden self)));
      Ok (Scale (coefficient c) (lpSum_vars vs)))
    (crops self)
  = Ok ((fun c => Scale (coefficient c)
                    (lpSum_vars (planted_vars (weeks (garden self)) c)))
          <$> crops self).
Proof.
  apply comprehension_Ok. intros c Hc.
  by rewrite (planted_vars_model self (name c)) by (by apply elem_of_get_plants).
Qed.


(** ** Values and variables of expressions *)

Lemma value_lpSum (x : LpVariable -> Q) (terms : list LpAffineExpression) :
  value x (lpSum terms) = sumQ (value x <$> terms).
Proof.
  induction terms as [|t terms IH]; [reflexivity|].
  cbn in *. by rewrite IH.
Qed.


Lemma value_Scale (x : LpVariable -> Q) (q : Q) (e : LpAffineExpression) :
  value x (Scale q e) = (q * value x e)%Q.
Proof. reflexivity. Qed.

Lemma value_lpSum_vars (x : LpVariable -> Q) (vs : list LpVariable) :
  value x (lpSum_vars vs) = sumQ (x <$> vs).
Proof.
  unfold lpSum_vars. rewrite value_lpSum, <- list_fmap_compose.
  reflexivity.
Qed.






(** ** Gardens that the constructor builds *)

Lemma Garden_init_wf (garden_file : GardenSchema) (plants : list Crop)
  (self : Garden) :
  Garden_init garden_file plants = Ok self → Garden_wf self.
Proof.
  unfold Garden_init.
  destruct (generate_compound_crops (set_not_compound <$> plants))
    as [compound|ex] eqn:Hgen; cbn; [|discriminate].
  intros [= <-]. unfold Garden_wf. apply forallb_forall. intros c Hc.
  cbn in Hc. apply list_elem_of_In, elem_of_app in Hc as [Hc|Hc].
  - apply list_elem_of_fmap in Hc as (p & -> & _). reflexivity.
  - destruct (generate_compound_crops_elem _ _ _ Hgen Hc)
      as (C & P & _ & _ & _ & HCP).
    apply compound_crop_entry in HCP.
    destruct HCP as (_ & _ & H1y & H2y & _ & _ & _ & _ & _ & H1n & H2n & Hcomp & _).
    unfold crop_wf. by rewrite Hcomp, H1y, H2y, H1n, H2n.
Qed.




(** ** The script *)



(** * Further properties of the code *)

(** ** Loops and comprehensions that raise *)

Lemma filter_all {A : Type} (P : A -> Prop) `{!∀ x, Decision (P x)}
  (l : list A) :
  (∀ x, x ∈ l → P x) → filter P l = l.
Proof.
  induction l as [|a l IH]; intros Hall; [reflexivity|].
  rewrite filter_cons_True by (apply Hall, list_elem_of_here).
  f_equal. apply IH. intros x Hx. apply Hall. by apply list_elem_of_further.
Qed.

Lemma comprehension_Raise {A B : Type} (f : A -> Result B) (l : list A)
  (e : Exception) :
  comprehension f l = Raise e → ∃ a, a ∈ l ∧ f a = Raise e.
Proof.
  induction l as [|a l IH]; [discriminate|].
  cbn [comprehension]. destruct (f a) as [b|e'] eqn:Hfa; cbn.
  - destruct (comprehension f l) as [ys|e'] eqn:Hl; cbn; [discriminate|].
    intros [= ->]. destruct IH as (a' & Ha' & Hfa'); [done|].
    exists a'. split; [by apply list_elem_of_further|done].
  - intros [= ->]. exists a. split; [apply list_elem_of_here|done].
Qed.

Lemma comprehension_Raise_elem {A B : Type} (f : A -> Result B)
  (l : list A) (a : A) (e : Exception) :
  a ∈ l → f a = Raise e → ∃ e', comprehension f l = Raise e'.
Proof.
  intros Ha Hfa. induction l as [|a' l IH]; [by apply elem_of_nil in Ha|].
  cbn [comprehension]. destruct (f a') as [b|e'] eqn:Hfa'; cbn; [|by eexists].
  apply elem_of_cons in Ha as [->|Ha]; [congruence|].
  destruct (IH Ha) as [e' ->]. cbn. by eexists.
Qed.

Lemma for_app {S A : Type} (body : S -> A -> Result S) (l1 l2 : list A)
  (s : S) :
  for_ (l1 ++ l2) body s = (s' ← for_ l1 body s; for_ l2 body s').
Proof.
  revert s. induction l1 as [|a l1 IH]; intros s; [reflexivity|].
  cbn [for_ app]. destruct (body s a) as [s'|e]; cbn; [apply IH|reflexivity].
Qed.

Lemma Forall2_elem_of_l {A B : Type} (R : A -> B -> Prop) (l : list A)
  (k : list B) (x : A) :
  Forall2 R l k → x ∈ l → ∃ y, y ∈ k ∧ R x y.
Proof.
  intros HR Hx. apply list_elem_of_lookup in Hx as [i Hi].
  destruct (Forall2_lookup_l _ _ _ _ _ HR Hi) as (y & Hy & Hxy).
  exists y. split; [by eapply list_elem_of_lookup_2|done].
Qed.

(** ** The Catalog Expander: errors and edge cases *)

Lemma compound_crop_Raise (C P : Crop) (e : Exception) :
  compound_crop C P = Raise e
  ↔ e = ZeroDivisionError ∧ (lifespan C = 0 ∨ lifespan P = 0).
Proof.
  unfold compound_crop, floordiv.
  destruct (decide (lifespan C = 0)) as [HC|HC]; cbn.
  - split; [intros [= <-]; auto|intros [-> _]; reflexivity].
  - destruct (decide (lifespan P = 0)) as [HP|HP]; cbn.
    + split; [intros [= <-]; auto|intros [-> _]; reflexivity].
    + split; [discriminate|intros [_ [?|?]]; done].
Qed.

Lemma generate_compound_crops_Raise (base : list Crop) (e : Exception) :
  generate_compound_crops base = Raise e →
  e = ZeroDivisionError
  ∧ ∃ C P, C ∈ base ∧ P ∈ base ∧ names_companion C P
           ∧ (lifespan C = 0 ∨ lifespan P = 0).
Proof.
  rewrite generate_compound_crops_collect.
  destruct (comprehension _ base) as [yss|e'] eqn:Hyss; cbn; [discriminate|].
  intros [= ->]. apply comprehension_Raise in Hyss as (C & HC & HCe).
  apply comprehension_Raise in HCe as (P & HP & HCP).
  apply list_elem_of_filter in HP as [Hnc HP].
  apply compound_crop_Raise in HCP as [-> Hzero].
  split; [reflexivity|]. by exists C, P.
Qed.

Lemma generate_compound_crops_zero (base : list Crop) (C P : Crop) :
  C ∈ base → P ∈ base → names_companion C P →
  lifespan C = 0 ∨ lifespan P = 0 →
  ∃ e, generate_compound_crops base = Raise e.
Proof.
  intros HC HP Hnc Hzero. rewrite generate_compound_crops_collect.
  destruct (comprehension_Raise_elem (compound_crop C)
              (filter (names_companion C) base) P ZeroDivisionError)
    as [e1 He1].
  { by apply list_elem_of_filter. }
  { by apply compound_crop_Raise. }
  destruct (comprehension_Raise_elem
              (fun C => comprehension (compound_crop C)
                          (filter (names_companion C) base))
              base C e1 HC He1) as [e2 He2].
  rewrite He2. cbn. by eexists.
Qed.

Lemma generate_compound_crops_entry (base compound : list Crop) (C P : Crop) :
  generate_compound_crops base = Ok compound →
  C ∈ base → P ∈ base → names_companion C P →
  ∃ e, e ∈ compound ∧ compound_crop C P = Ok e.
Proof.
  rewrite generate_compound_crops_collect.
  destruct (comprehension _ base) as [yss|ex] eqn:Hyss; cbn; [|discriminate].
  intros [= <-] HC HP Hnc. apply comprehension_Forall2 in Hyss.
  destruct (Forall2_elem_of_l _ _ _ _ Hyss HC) as (ys & Hys & HCys).
  apply comprehension_Forall2 in HCys.
  destruct (Forall2_elem_of_l _ _ _ P HCys) as (e & He & HCP).
  { by apply list_elem_of_filter. }
  exists e. split; [|done]. apply elem_of_concat. by exists ys.
Qed.


Lemma Garden_init_crops (garden_file : GardenSchema) (plants : list Crop)
  (self : Garden) :
  Garden_init garden_file plants = Ok self →
  ∃ compound,
    generate_compound_crops (set_not_compound <$> plants) = Ok compound
    ∧ self = {| crops := (set_not_compound <$> plants) ++ compound;
                garden := garden_file |}.
Proof.
  unfold Garden_init.
  destruct (generate_compound_crops (set_not_compound <$> plants))
    as [compound|ex]; cbn; [|discriminate].
  intros [= <-]. by exists compound.
Qed.

(** ** Yield Attribution without unique names *)

Lemma record_yield_is_Some (target : string) (ys : gmap string Q)
  (c : Crop) (k : string) :
  is_Some (record_yield target ys c !! k)
  ↔ is_Some (ys !! k) ∨ (name c = k ∧ is_Some (attributed target c)).
Proof.
  unfold record_yield. destruct (attributed target c) as [y|].
  - destruct (decide (name c = k)) as [<-|Hne].
    + rewrite lookup_insert_eq. split; [eauto|by eexists].
    + rewrite lookup_insert_ne by done. split; [tauto|].
      intros [?|[? _]]; done.
  - split; [tauto|]. intros [?|[_ [? ?]]]; done.
Qed.

Lemma fold_record_yield_is_Some (target : string) (l : list Crop)
  (ys : gmap string Q) (k : string) :
  is_Some (foldl (record_yield target) ys l !! k)
  ↔ is_Some (ys !! k)
    ∨ ∃ c, c ∈ l ∧ name c = k ∧ is_Some (attributed target c).
Proof.
  revert ys. induction l as [|a l IH]; intros ys; cbn [foldl].
  - split; [tauto|]. intros [?|(c & Hc & _)]; [done|].
    by apply elem_of_nil in Hc.
  - rewrite IH, record_yield_is_Some. split.
    + intros [[?|[Ha Hy]]|(c & Hc & Hk & Hy)].
      * by left.
      * right. exists a. split; [apply list_elem_of_here|done].
      * right. exists c. split; [by apply list_elem_of_further|done].
    + intros [?|(c & Hc & Hk & Hy)]; [tauto|].
      apply elem_of_cons in Hc as [->|Hc]; [tauto|].
      right. by exists c.
Qed.

Lemma fold_record_yield_silent (target : string) (l : list Crop)
  (ys : gmap string Q) (k : string) :
  (∀ c, c ∈ l → name c = k → attributed target c = None) →
  foldl (record_yield target) ys l !! k = ys !! k.
Proof.
  revert ys. induction l as [|a l IH]; intros ys Hsilent; [done|].
  cbn [foldl]. rewrite IH.
  - unfold record_yield. destruct (attributed target a) as [y|] eqn:Hy; [|done].
    destruct (decide (name a = k)) as [Hk|Hk].
    + rewrite (Hsilent a (list_elem_of_here _ _) Hk) in Hy. discriminate.
    + by rewrite lookup_insert_ne.
  - intros c Hc. apply Hsilent. by apply list_elem_of_further.
Qed.

Lemma fold_record_yield_none (target : string) (l : list Crop)
  (ys : gmap string Q) :
  (∀ c, c ∈ l → attributed target c = None) →
  foldl (record_yield target) ys l = ys.
Proof.
  revert ys. induction l as [|a l IH]; intros ys Hnone; [done|].
  cbn [foldl]. rewrite IH.
  - unfold record_yield. by rewrite (Hnone a (list_elem_of_here _ _)).
  - intros c Hc. apply Hnone. by apply list_elem_of_further.
Qed.

(** ** The names of the planting variables *)

Lemma count_char_app (a : Ascii.ascii) (s1 s2 : string) :
  count_char a (s1 +:+ s2) = (count_char a s1 + count_char a s2)%nat.
Proof.
  induction s1 as [|b s1 IH]; [reflexivity|].
  change (String b s1 +:+ s2) with (String b (s1 +:+ s2)).
  cbn [count_char]. rewrite IH. lia.
Qed.

Lemma pretty_N_char_not_underscore (x : N) : pretty_N_char x ≠ underscore.
Proof. unfold pretty_N_char, underscore. repeat case_match; discriminate. Qed.

Lemma count_underscore_pretty_N_go (x : N) (s : string) :
  count_char underscore (pretty_N_go x s) = count_char underscore s.
Proof.
  revert s. induction (N.lt_wf_0 x) as [x _ IH]; intros s.
  destruct (decide (x = 0)%N) as [->|Hx]; [by rewrite pretty_N_go_0|].
  rewrite pretty_N_go_step by lia.
  rewrite IH by (apply N.div_lt; lia).
  cbn. rewrite decide_False; [done|].
  intros Heq. by apply (pretty_N_char_not_underscore (x `mod` 10)%N).
Qed.

Lemma count_underscore_pretty_N (x : N) : count_char underscore (pretty x) = 0%nat.
Proof.
  unfold pretty, pretty_N. case_decide; [reflexivity|].
  by rewrite count_underscore_pretty_N_go.
Qed.

Lemma count_underscore_pretty_Z (z : Z) : count_char underscore (pretty z) = 0%nat.
Proof.
  destruct z as [|p|p]; [reflexivity|..].
  - apply (count_underscore_pretty_N (Npos p)).
  - change (pretty (Z.neg p)) with ("-" +:+ pretty (Npos p)).
    rewrite count_char_app, count_underscore_pretty_N. reflexivity.
Qed.

Lemma string_app_inv_head (s s1 s2 : string) :
  s +:+ s1 = s +:+ s2 → s1 = s2.
Proof. induction s as [|a s IH]; cbn; [done|]. intros [= ?]. by apply IH. Qed.

(** Two decompositions of one string: one prefix extends the other. *)
Lemma string_app_eq_inv (a a' x x' : string) :
  a +:+ x = a' +:+ x' →
  ∃ t, (a' = a +:+ t ∧ x = t +:+ x') ∨ (a = a' +:+ t ∧ x' = t +:+ x).
Proof.
  revert a'. induction a as [|c a IH]; intros a' Heq.
  - exists a'. left. by cbn in *.
  - destruct a' as [|c' a'].
    + exists (String c a). right. by cbn in *.
    + cbn in Heq. injection Heq as -> Heq.
      destruct (IH a' Heq) as [t [[-> ->]|[-> ->]]]; exists t; [left|right];
        by cbn.
Qed.

Lemma week_suffix_inv (t d d' : string) :
  count_char underscore d = 0%nat → count_char underscore d' = 0%nat →
  "_week_" +:+ d = t +:+ "_week_" +:+ d' → t = "" ∧ d = d'.
Proof.
  intros Hd Hd' Heq.
  assert (count_char underscore t = 0%nat) as Ht.
  { apply (f_equal (count_char underscore)) in Heq.
    rewrite !count_char_app, Hd, Hd' in Heq. cbn in Heq. lia. }
  destruct t as [|c t].
  - split; [done|]. cbn in Heq. by injection Heq.
  - cbn in Heq. injection Heq as <- _. cbn in Ht. discriminate.
Qed.

Lemma string_app_empty (s : string) : s +:+ "" = s.
Proof.
  induction s as [|c s IH]; [done|].
  change (String c s +:+ "") with (String c (s +:+ "")). by rewrite IH.
Qed.

Lemma get_plant_variable_name_eq (n n' : string) (p p' : Z) :
  get_plant_variable_name n p = get_plant_variable_name n' p' →
  n = n' ∧ p = p'.
Proof.
  unfold get_plant_variable_name. intros Heq.
  pose proof (count_underscore_pretty_Z p) as Hp.
  pose proof (count_underscore_pretty_Z p') as Hp'.
  destruct (string_app_eq_inv _ _ _ _ Heq) as [t [[-> Ht]|[-> Ht]]].
  - apply week_suffix_inv in Ht as [-> Hpp]; [|done..].
    split; [|by apply (inj pretty)]. by rewrite string_app_empty.
  - apply week_suffix_inv in Ht as [-> Hpp]; [|done..].
    split; [|by apply (inj pretty)]. by rewrite string_app_empty.
Qed.

(** ** The dictionaries of variables *)

Lemma LpVariable_dicts_lookup_iff `{Countable K} (family : K -> LpVariable)
  (indices : list K) (k : K) (v : LpVariable) :
  LpVariable_dicts family indices !! k = Some v
  ↔ k ∈ indices ∧ v = family k.
Proof.
  unfold LpVariable_dicts. rewrite foldl_insert_lookup, lookup_empty.
  case_decide; split; [intros [= <-]; done|intros [_ ->]; done|done|tauto].
Qed.

Lemma LpVariable_dicts_size `{Countable K} (family : K -> LpVariable)
  (indices : list K) :
  NoDup indices → size (LpVariable_dicts family indices) = length indices.
Proof.
  intros Hnd. rewrite <- (size_list_to_set (C:=gset K) indices Hnd).
  rewrite <- (size_dom (D:=gset K)). f_equal. apply set_eq. intros k.
  rewrite elem_of_dom, elem_of_list_to_set. unfold is_Some.
  setoid_rewrite LpVariable_dicts_lookup_iff. split; [by intros [v [? _]]|eauto].
Qed.

Lemma elem_of_get_plant_weeks_iff (self : Garden) (key : string) :
  key ∈ get_plant_weeks self
  ↔ ∃ n p, n ∈ get_plants self ∧ 0 ≤ p < weeks (garden self)
           ∧ key = get_plant_variable_name n p.
Proof.
  unfold get_plant_weeks. rewrite list_elem_of_bind. split.
  - intros (n & Hkey & Hn). apply list_elem_of_fmap in Hkey as (p & -> & Hp).
    apply elem_of_range in Hp. by exists n, p.
  - intros (n & p & Hn & Hp & ->). exists n. split; [|done].
    apply list_elem_of_fmap. exists p. split; [done|]. by apply elem_of_range.
Qed.

Lemma length_get_plant_weeks (self : Garden) :
  length (get_plant_weeks self)
  = (length (crops self) * Z.to_nat (weeks (garden self)))%nat.
Proof.
  unfold get_plant_weeks, get_plants.
  induction (crops self) as [|c cs IH]; [reflexivity|].
  rewrite fmap_cons, bind_cons, List.length_app, IH, length_fmap.
  unfold range. rewrite length_seqZ. cbn [length]. f_equal. lia.
Qed.

Lemma NoDup_get_plant_weeks (self : Garden) :
  NoDup (get_plants self) → NoDup (get_plant_weeks self).
Proof.
  intros Hnd. unfold get_plant_weeks. apply NoDup_bind; [| |done].
  - intros n n' key _ _ Hkey Hkey'.
    apply list_elem_of_fmap in Hkey as (p & -> & _).
    apply list_elem_of_fmap in Hkey' as (p' & Heq & _).
    by apply (get_plant_variable_name_eq n n' p p') in Heq as [-> _].
  - intros n _. apply NoDup_fmap_2_strong; [|apply NoDup_seqZ].
    intros p p' _ _ Heq.
    by apply (get_plant_variable_name_eq n n p p') in Heq as [_ ->].
Qed.

Lemma setup_problem_vars (num_weeks : Z) (self : Garden) (prob : LpProblem)
  (total_yield nitrogen_expression : LpAffineExpression)
  (plant_vars : gmap string LpVariable) (fallow_vars : gmap Z LpVariable) :
  setup_problem num_weeks self
    = Ok (prob, total_yield, nitrogen_expression, plant_vars, fallow_vars) →
  plant_vars = plant_vars_of self ∧ fallow_vars = fallow_vars_of num_weeks.
Proof.
  unfold setup_problem, mbind, Result_bind. intros Hsetup.
  repeat match type of Hsetup with
         | match ?m with Ok _ => _ | Raise _ => _ end = _ =>
             destruct m; [|discriminate Hsetup]
         end.
  by injection Hsetup as _ _ _ <- <-.
Qed.

Lemma comprehension_getitem_missing `{Countable K} {V : Type} (m : gmap K V)
  (l : list K) (k : K) :
  k ∈ l → m !! k = None →
  comprehension (fun k => getitem (m !! k)) l = Raise KeyError.
Proof.
  intros Hk Hnone.
  destruct (comprehension_Raise_elem (fun k => getitem (m !! k)) l k KeyError)
    as [e He]; [done|by rewrite Hnone|].
  rewrite He. f_equal.
  apply comprehension_Raise in He as (k' & _ & Hk').
  destruct (m !! k'); [discriminate|]. by injection Hk'.
Qed.

Lemma plant_vars_of_lookup_None (self : Garden) (n : string) (p : Z) :
  ¬ (0 ≤ p < weeks (garden self)) →
  plant_vars_of self !! get_plant_variable_name n p = None.
Proof.
  intros Hp. destruct (plant_vars_of self !! _) as [v|] eqn:Hv; [|done].
  apply LpVariable_dicts_lookup_iff in Hv as [Hkey _].
  apply elem_of_get_plant_weeks_iff in Hkey as (n' & p' & _ & Hp' & Heq).
  apply get_plant_variable_name_eq in Heq as [_ ->]. done.
Qed.

(** ** The model with its yield targets *)

Lemma yield_constraints_explicit (self : Garden)
  (total_yield : LpAffineExpression) (prob : LpProblem)
  (yield_spec : YieldSpec) :
  Garden_wf self →
  yield_constraints (weeks (garden self)) self (plant_vars_of self)
    total_yield prob yield_spec
  = Ok (extend prob (yield_block self total_yield yield_spec)).
Proof.
  intros Hwf. unfold yield_constraints.
  pose proof (get_target_yields_fold self (plant yield_spec) Hwf) as Hys.
  rewrite Hys. cbn [mbind Result_bind].
  rewrite (comprehension_Ok _
             (fun cy : string * Q =>
                Scale cy.2 (lpSum_vars (planting cy.1
                              <$> interval 0 (weeks (garden self) - 1))))).
  2:{ intros [c y] Hcy.
      rewrite (planted_vars_model self c)
        by (by eapply get_target_yields_keys).
      reflexivity. }
  cbn [mbind Result_bind]. unfold yield_block.
  fold (target_yields_of self (plant yield_spec)).
  fold (contributing_sum self (plant yield_spec)).
  destruct (max_yield yield_spec), (max_yield_pct yield_spec);
    rewrite !add_constraint_extend, ?extend_extend; reflexivity.
Qed.

Lemma setup_problem_explicit (self : Garden) :
  Garden_wf self →
  setup_problem (weeks (garden self)) self
  = Ok ({| objective :=
             Some (Plus (total_yield_of self)
                     (Scale (1#10) (nitrogen_of self)));
           constraints := model_constraints self |},
        total_yield_of self, nitrogen_of self,
        plant_vars_of self, fallow_vars_of (weeks (garden self))).
Proof.
  intros Hwf. unfold setup_problem.
  fold (plant_vars_of self). fold (fallow_vars_of (weeks (garden self))).
  assert (comprehension (fun c =>
              vs ← comprehension
                     (fun c_w => getitem (plant_vars_of self !! c_w))
                     (get_weeks_for_plant self c);
              Ok (Scale (yield c) (lpSum_vars vs)))
            (crops self)
          = Ok ((fun c => Scale (yield c)
                   (lpSum_vars (planted_vars (weeks (garden self)) c)))
                  <$> crops self)) as ->
    by exact (yield_terms_model self yield).
  cbn [mbind Result_bind].
  rewrite (yield_terms_model self delta_n). cbn [mbind Result_bind].
  fold (total_yield_of self). fold (nitrogen_of self).
  rewrite (for_extend _ (week_block self)).
  2:{ intros w prob Hw. apply week_constraints_model.
      by apply elem_of_range in Hw. }
  cbn [mbind Result_bind].
  rewrite (for_extend _ (yield_block self (total_yield_of self))).
  2:{ intros yield_spec prob _. by apply yield_constraints_explicit. }
  cbn [mbind Result_bind].
  rewrite (for_extend _ (fun c =>
             if is_cover_crop c then []
             else [latest_planting_constraint (weeks (garden self)) c])).
  2:{ intros c prob Hc. by apply latest_planting_model. }
  cbn [mbind Result_bind]. rewrite bind_filter.
  rewrite add_constraint_extend, !extend_extend. reflexivity.
Qed.






Lemma value_contributing_sum (self : Garden) (target : string)
  (x : LpVariable -> Q) :
  value x (contributing_sum self target)
  = sumQ ((fun cy : string * Q =>
             (cy.2 * sumQ ((fun p => x (planting cy.1 p))
                             <$> interval 0 (weeks (garden self) - 1)))%Q)
            <$> map_to_list (target_yields_of self target)).
Proof.
  unfold contributing_sum, dict_items.
  rewrite value_lpSum, <- list_fmap_compose. f_equal.
  apply list_fmap_ext. intros i cy _. cbn [compose].
  by rewrite value_Scale, value_lpSum_vars, <- list_fmap_compose.
Qed.

(** ** The report *)

Lemma contains_hyphen_app (a b : string) :
  contains_hyphen (a +:+ b) = contains_hyphen a || contains_hyphen b.
Proof.
  induction a as [|x a IH]; [done|].
  change (String x a +:+ b) with (String x (a +:+ b)).
  cbn [contains_hyphen]. by case_decide.
Qed.

Lemma split_hyphen_free (s : string) :
  contains_hyphen s = false → split_hyphen s = [s].
Proof.
  induction s as [|x s IH]; [done|]. cbn [contains_hyphen split_hyphen].
  case_decide; [done|]. intros Hs. by rewrite IH.
Qed.

Lemma split_hyphen_app (a s : string) :
  contains_hyphen a = false →
  split_hyphen (a +:+ "-" +:+ s) = a :: split_hyphen s.
Proof.
  induction a as [|x a IH].
  - intros _. change ("" +:+ "-" +:+ s) with (String hyphen s).
    cbn [split_hyphen]. by case_decide.
  - change (String x a +:+ "-" +:+ s) with (String x (a +:+ "-" +:+ s)).
    cbn [contains_hyphen split_hyphen]. case_decide; [done|].
    intros Ha. by rewrite IH.
Qed.

Lemma split_hyphen_join (parts : list string) :
  parts ≠ [] → Forall (fun part => contains_hyphen part = false) parts →
  split_hyphen (join_hyphen parts) = parts.
Proof.
  induction parts as [|a [|b parts] IH]; [done| |].
  - intros _ Ha. apply split_hyphen_free. by inversion Ha.
  - intros _ Hall. inversion Hall as [|? ? Ha Hrest]; subst.
    cbn [join_hyphen]. rewrite split_hyphen_app by done.
    f_equal. by apply IH.
Qed.

Lemma contains_hyphen_join (parts : list string) :
  contains_hyphen (join_hyphen parts)
  = bool_decide (2 ≤ length parts)%nat
    || existsb contains_hyphen parts.
Proof.
  induction parts as [|a [|b parts] IH]; [done| |].
  - cbn. by rewrite orb_false_r.
  - cbn [join_hyphen]. rewrite !contains_hyphen_app.
    change (contains_hyphen "-") with true.
    rewrite orb_true_r. cbn [length]. by rewrite bool_decide_true by lia.
Qed.

Lemma split_hyphen_length (s : string) :
  ((if contains_hyphen s then 2 else 1) ≤ length (split_hyphen s))%nat.
Proof.
  induction s as [|x s IH]; [done|]. cbn [contains_hyphen split_hyphen].
  case_decide.
  - cbn [length]. destruct (contains_hyphen s); lia.
  - destruct (split_hyphen s) as [|part parts];
      [destruct (contains_hyphen s); cbn in IH; lia|].
    done.
Qed.

Lemma pretty_name_Ok (c : string) : ∃ label, pretty_name c = Ok label.
Proof.
  unfold pretty_name. destruct (contains_hyphen c) eqn:Hc; [|by eexists].
  pose proof (split_hyphen_length c) as Hlen. rewrite Hc in Hlen.
  destruct (split_hyphen c) as [|a [|b parts]]; cbn in Hlen; [lia|lia|].
  by eexists.
Qed.

Lemma get_crop_by_name_Ok (self : Garden) (n : string) :
  n ∈ get_plants self →
  ∃ crop, get_crop_by_name self n = Ok crop ∧ crop ∈ crops self
          ∧ name crop = n.
Proof.
  unfold get_plants, get_crop_by_name. intros Hn.
  apply list_elem_of_fmap in Hn as (c & Hname & Hc).
  assert (c ∈ filter (fun c => name c = n) (crops self)) as Hin
    by by apply list_elem_of_filter.
  destruct (filter _ (crops self)) as [|c0 l] eqn:Hf.
  - by apply not_elem_of_nil in Hin.
  - exists c0. split; [done|].
    assert (c0 ∈ filter (fun c => name c = n) (crops self)) as Hc0
      by (rewrite Hf; apply list_elem_of_here).
    by apply list_elem_of_filter in Hc0 as [? ?].
Qed.

Lemma get_crop_by_name_elem (self : Garden) (n : string) (crop : Crop) :
  get_crop_by_name self n = Ok crop → crop ∈ crops self ∧ name crop = n.
Proof.
  unfold get_crop_by_name.
  destruct (filter _ (crops self)) as [|c0 l] eqn:Hf; [done|].
  intros [= <-].
  assert (c0 ∈ filter (fun c => name c = n) (crops self)) as Hc0
    by (rewrite Hf; apply list_elem_of_here).
  by apply list_elem_of_filter in Hc0 as [? ?].
Qed.

Section ReportLemmas.
Variable x : LpVariable -> Q.
Variable round_ : Q -> Z -> Q.

Lemma plantings_cell_explicit (self : Garden) (crop : Crop) (w : Z) :
  get_crop_by_name self (name crop) = Ok crop →
  0 ≤ w < weeks (garden self) → 1 ≤ lifespan crop →
  ∃ label,
    pretty_name (name crop) = Ok label
    ∧ plantings_cell x round_ self (plant_vars_of self) (name crop) w
      = Ok {| row_label := if decide (w = 0) then Some label else None;
              instructions :=
                plant_instruction x round_ (name crop) w
                ++ harvest_instruction x round_ (name crop)
                     (lifespan crop) w |}.
Proof.
  intros Hcrop Hw Hlife.
  destruct (get_crop_by_name_elem _ _ _ Hcrop) as [Hin _].
  destruct (pretty_name_Ok (name crop)) as [label Hlabel].
  exists label. split; [done|].
  unfold plantings_cell.
  rewrite plant_vars_of_lookup by (by apply elem_of_get_plants || done).
  cbn [getitem mbind Result_bind]. rewrite Hlabel. cbn [mbind Result_bind].
  rewrite Hcrop. cbn [mbind Result_bind].
  unfold plant_instruction, harvest_instruction, epsilon.
  destruct (decide (w + 1 - lifespan crop >= 0)) as [Hh|Hh].
  - rewrite plant_vars_of_lookup by (by apply elem_of_get_plants || lia).
    cbn [getitem mbind Result_bind].
    destruct (decide (1 # 10 < x (planting (name crop) (w + 1 - lifespan crop)))%Q).
    + rewrite (decide_True (P := _ ∧ _)) by (split; [lia|done]). done.
    + rewrite (decide_False (P := _ ∧ _)) by (intros [_ ?]; done).
      by rewrite app_nil_r.
  - rewrite (decide_False (P := _ ∧ _)) by (intros [? _]; lia).
    by rewrite app_nil_r.
Qed.

Lemma plantings_cell_KeyError (self : Garden) (crop : Crop) (w : Z) :
  get_crop_by_name self (name crop) = Ok crop →
  0 ≤ w < weeks (garden self) → weeks (garden self) ≤ w + 1 - lifespan crop →
  plantings_cell x round_ self (plant_vars_of self) (name crop) w
  = Raise KeyError.
Proof.
  intros Hcrop Hw Hlife.
  destruct (get_crop_by_name_elem _ _ _ Hcrop) as [Hin _].
  destruct (pretty_name_Ok (name crop)) as [label Hlabel].
  unfold plantings_cell.
  rewrite plant_vars_of_lookup by (by apply elem_of_get_plants || done).
  cbn [getitem mbind Result_bind]. rewrite Hlabel. cbn [mbind Result_bind].
  rewrite Hcrop. cbn [mbind Result_bind].
  rewrite decide_True by lia.
  rewrite plant_vars_of_lookup_None by lia. done.
Qed.
End ReportLemmas.

Lemma crop_mapping_explicit (self : Garden) :
  Garden_wf self →
  crop_mapping self
  = Ok (foldl (fun m p => <[p := target_yields_of self p]> m) ∅
          (get_non_compound_plant_names self)).
Proof.
  intros Hwf. unfold crop_mapping. apply for_pure. intros p m _.
  by rewrite get_target_yields_fold.
Qed.

Lemma elem_of_unique_crops (m : gmap string (gmap string Q)) (c : string) :
  c ∈ unique_crops m ↔ ∃ p ys, m !! p = Some ys ∧ is_Some (ys !! c).
Proof.
  unfold unique_crops, dict_values. rewrite elem_of_union_list. split.
  - intros (X & HX & Hc). apply list_elem_of_fmap in HX as (ys & -> & Hys).
    apply list_elem_of_fmap in Hys as ([p ys'] & -> & Hp).
    apply elem_of_map_to_list in Hp. exists p, ys'. split; [done|].
    by apply elem_of_dom.
  - intros (p & ys & Hp & Hc). exists (dom ys). split; [|by apply elem_of_dom].
    apply list_elem_of_fmap. exists ys. split; [done|].
    apply list_elem_of_fmap. exists (p, ys). split; [done|].
    by apply elem_of_map_to_list.
Qed.

Lemma elem_of_unique_crops_mapping (self : Garden)
  (m : gmap string (gmap string Q)) (c : string) :
  Garden_wf self → crop_mapping self = Ok m →
  c ∈ unique_crops m
  ↔ ∃ e p, e ∈ crops self ∧ name e = c
           ∧ p ∈ get_non_compound_plant_names self
           ∧ is_Some (attributed p e).
Proof.
  intros Hwf. rewrite crop_mapping_explicit by done. intros [= <-].
  rewrite elem_of_unique_crops. split.
  - intros (p & ys & Hp & Hc). rewrite foldl_insert_lookup in Hp.
    case_decide as Hin; [|by rewrite lookup_empty in Hp].
    injection Hp as <-. unfold target_yields_of in Hc.
    apply fold_record_yield_is_Some in Hc as [Hc|(e & He & Hname & Hatt)].
    + rewrite lookup_empty in Hc. by destruct Hc.
    + by exists e, p.
  - intros (e & p & He & Hname & Hp & Hatt).
    exists p, (target_yields_of self p). split.
    + rewrite foldl_insert_lookup. by rewrite decide_True.
    + unfold target_yields_of. apply fold_record_yield_is_Some. right.
      by exists e.
Qed.

Lemma unique_crops_names (self : Garden) (m : gmap string (gmap string Q))
  (c : string) :
  Garden_wf self → crop_mapping self = Ok m →
  c ∈ unique_crops m → c ∈ get_plants self.
Proof.
  intros Hwf Hm Hc.
  apply (elem_of_unique_crops_mapping self m c Hwf Hm) in Hc
    as (e & p & He & <- & _). by apply elem_of_get_plants.
Qed.

Lemma elem_of_get_non_compound_plant_names (self : Garden) (e : Crop) :
  e ∈ crops self → is_compound e = false →
  name e ∈ get_non_compound_plant_names self.
Proof.
  intros He Hcomp. unfold get_non_compound_plant_names.
  apply list_elem_of_fmap. exists e. split; [done|].
  by apply list_elem_of_filter.
Qed.

Lemma Garden_init_attributed (garden_file : GardenSchema)
  (plants : list Crop) (self : Garden) (e : Crop) :
  Garden_init garden_file plants = Ok self → e ∈ crops self →
  ∃ p, p ∈ get_non_compound_plant_names self ∧ is_Some (attributed p e).
Proof.
  intros Hinit He.
  destruct (Garden_init_crops _ _ _ Hinit) as (compound & Hgen & ->).
  cbn [crops] in He.
  assert (∀ b, b ∈ set_not_compound <$> plants → is_compound b = false)
    as Hbase.
  { intros b Hb. by apply list_elem_of_fmap in Hb as (q & -> & _). }
  apply elem_of_app in He as [He|He].
  - exists (name e). split.
    + apply elem_of_get_non_compound_plant_names; [|by apply Hbase].
      cbn [crops]. apply elem_of_app. by left.
    + unfold attributed. rewrite (Hbase e He). by rewrite decide_True.
  - destruct (generate_compound_crops_elem _ _ _ Hgen He)
      as (C & P & HC & _ & _ & HCP).
    apply compound_crop_entry in HCP
      as (_ & _ & Hy1 & _ & _ & _ & _ & _ & _ & Hp1 & _ & Hcomp & _).
    exists (name C). split.
    + apply elem_of_get_non_compound_plant_names; [|by apply Hbase].
      cbn [crops]. apply elem_of_app. by left.
    + unfold attributed. rewrite Hcomp, Hp1, Hy1. by rewrite decide_True.
Qed.

Lemma int_bounds (q : Q) :
  (0 <= q)%Q → (inject_Z (int_ q) <= q)%Q ∧ (q < inject_Z (int_ q + 1))%Q.
Proof.
  destruct q as [n d]. unfold Qle, Qlt, int_, inject_Z. cbn. intros Hn.
  assert (0 ≤ n) as Hn' by lia.
  rewrite Z.quot_div_nonneg by lia.
  pose proof (Z.mul_div_le n (Z.pos d) ltac:(lia)).
  pose proof (Z.mul_succ_div_gt n (Z.pos d) ltac:(lia)).
  lia.
Qed.

Lemma sum_foldl (l : list Q) (a : Q) :
  (foldl Qplus a l == a + sumQ l)%Q.
Proof.
  revert a. induction l as [|q l IH]; intros a; cbn [foldl sumQ foldr].
  - by rewrite Qplus_0_r.
  - rewrite IH. fold (sumQ l). by rewrite Qplus_assoc.
Qed.

Lemma sum_sumQ (l : list Q) : (sum_ l == sumQ l)%Q.
Proof. unfold sum_. rewrite sum_foldl. by rewrite Qplus_0_l. Qed.

Lemma sum_int_foldl (l : list Z) (a : Z) :
  foldl Z.add a l = a + foldr Z.add 0 l.
Proof.
  revert a. induction l as [|z l IH]; intros a; cbn [foldl foldr]; [lia|].
  rewrite IH. lia.
Qed.

Lemma sumQ_nonneg (l : list Q) :
  Forall (fun q => (0 <= q)%Q) l → (0 <= sumQ l)%Q.
Proof.
  induction 1 as [|q l Hq _ IH]; cbn [sumQ foldr]; [done|].
  fold (sumQ l). rewrite <- (Qplus_0_l 0). by apply Qplus_le_compat.
Qed.

(** Integer parts add up to at most the sum, and fall short of it by at
    most one for each summand. *)
Lemma sum_int_bounds {A : Type} (f : A -> Q) (l : list A) :
  (∀ a, a ∈ l → (0 <= f a)%Q) →
  (inject_Z (sum_int ((fun a => int_ (f a)) <$> l)) <= sumQ (f <$> l))%Q
  ∧ (sumQ (f <$> l)
     <= inject_Z (sum_int ((fun a => int_ (f a)) <$> l)
                  + Z.of_nat (length l)))%Q.
Proof.
  unfold sum_int. rewrite sum_int_foldl, Z.add_0_l.
  induction l as [|a l IH]; intros Hpos; cbn [fmap list_fmap foldr sumQ length].
  - done.
  - fold (sumQ (f <$> l)).
    destruct IH as [IH1 IH2];
      [intros b Hb; apply Hpos; by apply list_elem_of_further|].
    destruct (int_bounds (f a)) as [H1 H2];
      [apply Hpos, list_elem_of_here|].
    rewrite inject_Z_plus. split.
    + by apply Qplus_le_compat.
    + replace (int_ (f a)
               + foldr Z.add 0 ((fun a0 => int_ (f a0)) <$> l)
               + Z.of_nat (S (length l)))
        with ((int_ (f a) + 1)
              + (foldr Z.add 0 ((fun a0 => int_ (f a0)) <$> l)
                 + Z.of_nat (length l))) by lia.
      rewrite inject_Z_plus.
      apply Qplus_le_compat; [by apply Qlt_le_weak|done].
Qed.

Lemma sumQ_ext {A : Type} (f g : A -> Q) (l : list A) :
  (∀ a, (f a == g a)%Q) → (sumQ (f <$> l) == sumQ (g <$> l))%Q.
Proof.
  intros Hfg. induction l as [|a l IH]; cbn [fmap list_fmap sumQ foldr];
    [done|].
  fold (sumQ (f <$> l)) (sumQ (g <$> l)). by rewrite IH, Hfg.
Qed.

Section SummaryLemmas.
Variable x : LpVariable -> Q.

Lemma target_yield_sum_explicit (self : Garden) (ys : gmap string Q) :
  (∀ c y, (c, y) ∈ dict_items ys → c ∈ get_plants self) →
  target_yield_sum x (weeks (garden self)) (plant_vars_of self) ys
  = Ok (sum_int
          ((fun cy : string * Q =>
              int_ (cy.2 * sum_ ((fun p => x (planting cy.1 p))
                                   <$> range 0 (weeks (garden self)))))
             <$> dict_items ys)).
Proof.
  intros Hkeys. unfold target_yield_sum.
  rewrite (comprehension_Ok _
    (fun cy : string * Q =>
       int_ (cy.2 * sum_ ((fun p => x (planting cy.1 p))
                            <$> range 0 (weeks (garden self)))))); [done|].
  intros [c y] Hcy. unfold get_variable_names_for_weeks.
  rewrite comprehension_fmap.
  rewrite (comprehension_Ok _ (fun p => x (planting c p))); [done|].
  intros p Hp. apply elem_of_range in Hp.
  rewrite (plant_vars_of_lookup self c p); [done|by eapply Hkeys|lia].
Qed.

Lemma target_yield_sum_bounds_of (self : Garden) (target : string) :
  Garden_wf self → (∀ v, (0 <= x v)%Q) →
  (∀ c y, target_yields_of self target !! c = Some y → (0 <= y)%Q) →
  ∃ total,
    target_yield_sum x (weeks (garden self)) (plant_vars_of self)
      (target_yields_of self target) = Ok total
    ∧ (inject_Z total <= value x (contributing_sum self target))%Q
    ∧ (value x (contributing_sum self target)
       <= inject_Z (total
                    + Z.of_nat (size (target_yields_of self target))))%Q.
Proof.
  intros Hwf Hx Hy. eexists. split.
  { apply target_yield_sum_explicit. intros c y Hcy.
    eapply get_target_yields_keys; [done| |exact Hcy].
    by apply get_target_yields_fold. }
  rewrite value_contributing_sum. unfold dict_items.
  set (f := fun cy : string * Q =>
              (cy.2 * sum_ ((fun p => x (planting cy.1 p))
                              <$> range 0 (weeks (garden self))))%Q).
  set (l := map_to_list (target_yields_of self target)).
  assert (sumQ ((fun cy : string * Q =>
             (cy.2 * sumQ ((fun p => x (planting cy.1 p))
                             <$> interval 0 (weeks (garden self) - 1)))%Q)
            <$> l) == sumQ (f <$> l))%Q as ->.
  { apply sumQ_ext. intros [c y]. unfold f. cbn [fst snd].
    by rewrite sum_sumQ, range_interval. }
  replace (size (target_yields_of self target)) with (length l)
    by (unfold l; by rewrite length_map_to_list).
  apply (sum_int_bounds f l). intros [c y] Hcy. unfold f. cbn [fst snd].
  apply Qmult_le_0_compat.
  - apply (Hy c). by apply elem_of_map_to_list.
  - rewrite sum_sumQ. apply sumQ_nonneg.
    apply Forall_fmap, Forall_forall. intros p _. apply Hx.
Qed.
End SummaryLemmas.

Lemma planting_eq (n n' : string) (p p' : Z) :
  planting n p = planting n' p' → n = n' ∧ p = p'.
Proof.
  unfold planting. intros [= Heq]. by apply get_plant_variable_name_eq.
Qed.

Section CellLemmas.
Variable x : LpVariable -> Q.
Variable round_ : Q -> Z -> Q.

(** A cell that is computed lies in the horizon and holds the two
    instructions, whatever the lifespan of the crop. *)
Lemma plantings_cell_inv (self : Garden) (crop : Crop) (w : Z) (cell : Cell) :
  get_crop_by_name self (name crop) = Ok crop →
  plantings_cell x round_ self (plant_vars_of self) (name crop) w = Ok cell →
  0 ≤ w < weeks (garden self)
  ∧ instructions cell
    = plant_instruction x round_ (name crop) w
      ++ harvest_instruction x round_ (name crop) (lifespan crop) w.
Proof.
  intros Hcrop.
  destruct (get_crop_by_name_elem _ _ _ Hcrop) as [Hin _].
  destruct (pretty_name_Ok (name crop)) as [label Hlabel].
  unfold plantings_cell.
  destruct (decide (0 ≤ w < weeks (garden self))) as [Hw|Hw];
    [|by rewrite plant_vars_of_lookup_None].
  rewrite plant_vars_of_lookup by (by apply elem_of_get_plants || done).
  cbn [getitem mbind Result_bind]. rewrite Hlabel. cbn [mbind Result_bind].
  rewrite Hcrop. cbn [mbind Result_bind].
  unfold plant_instruction, harvest_instruction, epsilon.
  destruct (decide (w + 1 - lifespan crop >= 0)) as [Hh|Hh].
  - destruct (decide (w + 1 - lifespan crop < weeks (garden self)))
      as [Hlt|Hlt]; [|by rewrite plant_vars_of_lookup_None by lia].
    rewrite plant_vars_of_lookup by (by apply elem_of_get_plants || lia).
    cbn [getitem mbind Result_bind].
    destruct (decide (1 # 10 < x (planting (name crop)
                                    (w + 1 - lifespan crop)))%Q).
    + rewrite (decide_True (P := _ ∧ _)) by (split; [lia|done]).
      by intros [= <-].
    + rewrite (decide_False (P := _ ∧ _)) by (intros [_ ?]; done).
      intros [= <-]. cbn [instructions]. by rewrite app_nil_r.
  - rewrite (decide_False (P := _ ∧ _)) by (intros [? _]; lia).
    intros [= <-]. cbn [instructions]. by rewrite app_nil_r.
Qed.

Lemma elem_of_Harvest (c : string) (lifespan_ w p : Z) (area : Q) :
  Harvest area p
    ∈ plant_instruction x round_ c w
      ++ harvest_instruction x round_ c lifespan_ w →
  p = w + 1 - lifespan_ ∧ 0 ≤ p ∧ (1#10 < x (planting c p))%Q.
Proof.
  unfold plant_instruction, harvest_instruction. intros Hin.
  apply elem_of_app in Hin as [Hin|Hin].
  - case_decide; [|by apply not_elem_of_nil in Hin].
    by apply list_elem_of_singleton in Hin.
  - case_decide as Hd; [|by apply not_elem_of_nil in Hin].
    apply list_elem_of_singleton in Hin. injection Hin as _ ->.
    by destruct Hd.
Qed.
End CellLemmas.

Lemma min_yield_in_model (self : Garden) (yield_spec : YieldSpec) :
  yield_spec ∈ yields (garden self) →
  (plant yield_spec +:+ "_min_yield",
   {| lhs := contributing_sum self (plant yield_spec);
      sense := LpConstraintGE;
      rhs := Const (min_yield yield_spec) |}) ∈ model_constraints self.
Proof.
  intros Hspec. unfold model_constraints.
  apply elem_of_app. right. apply elem_of_app. left.
  apply list_elem_of_bind. exists yield_spec. split; [|done].
  unfold yield_block. apply elem_of_app. left. apply list_elem_of_here.
Qed.

Lemma max_yield_in_model (self : Garden) (yield_spec : YieldSpec) (m : Q) :
  yield_spec ∈ yields (garden self) → max_yield yield_spec = Some m →
  (plant yield_spec +:+ "_max_yield",
   {| lhs := contributing_sum self (plant yield_spec);
      sense := LpConstraintLE;
      rhs := Const m |}) ∈ model_constraints self.
Proof.
  intros Hspec Hm. unfold model_constraints.
  apply elem_of_app. right. apply elem_of_app. left.
  apply list_elem_of_bind. exists yield_spec. split; [|done].
  unfold yield_block. rewrite Hm. apply elem_of_app. right.
  apply elem_of_app. left. apply list_elem_of_here.
Qed.

Lemma pretty_name_parts (a b : string) (rest : list string) :
  Forall (fun part => contains_hyphen part = false) (a :: b :: rest) →
  pretty_name (join_hyphen (a :: b :: rest)) = Ok (a +:+ " with " +:+ b).
Proof.
  intros Hparts. unfold pretty_name. rewrite contains_hyphen_join.
  cbn [length]. rewrite bool_decide_true by lia. cbn [orb].
  by rewrite split_hyphen_join.
Qed.

(** * The claims *)

(** C4. For a crop of positive lifespan [L] and a week [w >= 0] whose
    planting variables exist, the Temporal Overlap Resolver returns exactly
    the variables of the planting weeks [max(0, w - L + 1) .. w], both ends
    included, each once and in ascending order; with lifespan 3 these are
    the weeks 3, 4, 5 at week 5 and the weeks 0, 1 at week 1. *)
Theorem get_plants_living_in_week_alive (crop : Crop) (w : Z)
  (plant_vars : gmap string LpVariable) (var : Z -> LpVariable) :
  0 < lifespan crop → 0 ≤ w →
  (∀ p, Z.max 0 (w - lifespan crop + 1) ≤ p ≤ w →
        plant_vars !! get_plant_variable_name (name crop) p = Some (var p)) →
  get_plants_living_in_week crop w plant_vars
    = Ok (var <$> alive_weeks crop w)
  ∧ (∀ p, p ∈ alive_weeks crop w ↔ Z.max 0 (w - lifespan crop + 1) ≤ p ≤ w)
  ∧ NoDup (alive_weeks crop w)
  ∧ (lifespan crop = 3 → w = 5 → alive_weeks crop w = [3; 4; 5])
  ∧ (lifespan crop = 3 → w = 1 → alive_weeks crop w = [0; 1]).
Proof.
  intros HL Hw Hvars. split; [|split; [|split; [|split]]].
  - by apply get_plants_living_in_week_interval.
  - intros p. apply elem_of_interval.
  - apply NoDup_interval.
  - intros HL3 ->. unfold alive_weeks. rewrite HL3. reflexivity.
  - intros HL3 ->. unfold alive_weeks. rewrite HL3. reflexivity.
Qed.

Lemma get_plants_living_in_week_alive_witness :
  get_plants_living_in_week (base_crop "kale" [] 3 1 false) 5
    (LpVariable_dicts planted
       (get_variable_names_for_weeks "kale" 0 8))
  = Ok [planting "kale" 3; planting "kale" 4; planting "kale" 5].
Proof.
  apply (get_plants_living_in_week_alive (base_crop "kale" [] 3 1 false) 5
           (LpVariable_dicts planted (get_variable_names_for_weeks "kale" 0 8))
           (planting "kale")).
  - reflexivity.
  - discriminate.
  - intros p Hp. cbn in Hp.
    assert (p = 3 ∨ p = 4 ∨ p = 5) as [-> | [-> | ->]] by lia;
      vm_compute; reflexivity.
Defined.

(** C10. [get_crop_by_name] raises [IndexError] for a name that no catalog
    entry bears, and returns the first entry, in catalog order, that bears
    the name otherwise. *)
Theorem get_crop_by_name_first (self : Garden) (n : string) :
  ((∀ c, c ∈ crops self → name c ≠ n) →
     get_crop_by_name self n = Raise IndexError)
  ∧ (∀ before c after,
       crops self = before ++ c :: after →
       (∀ c', c' ∈ before → name c' ≠ n) →
       name c = n →
       get_crop_by_name self n = Ok c).
Proof.
  unfold get_crop_by_name. split.
  - intros Hnone.
    assert (filter (λ c, name c = n) (crops self) = []) as ->; [|done].
    apply filter_none. intros c Hc. by apply Hnone.
  - intros before c after -> Hbefore Hc.
    rewrite list.filter_app, filter_cons_True by done.
    assert (filter (λ c, name c = n) before = []) as ->; [|done].
    apply filter_none. intros c' Hc'. by apply Hbefore.
Qed.

Lemma get_crop_by_name_first_witness :
  get_crop_by_name {| crops := [crop_A; crop_B; crop_B]; garden := lettuce_params |} "ghost"
    = Raise IndexError
  ∧ get_crop_by_name {| crops := [crop_A; crop_B; crop_B]; garden := lettuce_params |} "B"
    = Ok crop_B.
Proof.
  split.
  - apply (get_crop_by_name_first
             {| crops := [crop_A; crop_B; crop_B]; garden := lettuce_params |} "ghost").
    intros c Hc. cbn in Hc.
    repeat (apply elem_of_cons in Hc as [Hc|Hc]; [subst c; discriminate|]).
    by apply elem_of_nil in Hc.
  - apply (get_crop_by_name_first
             {| crops := [crop_A; crop_B; crop_B]; garden := lettuce_params |} "B")
      with (before := [crop_A]) (after := [crop_B]).
    + reflexivity.
    + intros c' Hc'. apply list_elem_of_singleton in Hc' as ->. discriminate.
    + reflexivity.
Defined.

(** C5. In a catalog whose names are unique, Yield Attribution returns,
    for every target, a mapping in which a non-compound entry named as the
    target maps to its full yield, a compound entry whose first component
    is the target maps to [plant_1_yield], one whose second component (and
    not the first) is the target maps to [plant_2_yield], and an entry that
    matches neither way is absent; the mapping has no other key. *)
Theorem get_target_yields_attribution (self : Garden) (target : string) :
  Garden_wf self → NoDup (name <$> crops self) →
  ∃ ys : gmap string Q,
    get_target_yields self target = Ok ys
    ∧ (∀ c, c ∈ crops self →
         (is_compound c = false → name c = target →
            ys !! name c = Some (yield c))
         ∧ (is_compound c = true → plant_1_name c = Some target →
            ys !! name c = plant_1_yield c ∧ is_Some (plant_1_yield c))
         ∧ (is_compound c = true → plant_1_name c ≠ Some target →
            plant_2_name c = Some target →
            ys !! name c = plant_2_yield c ∧ is_Some (plant_2_yield c))
         ∧ (is_compound c = false → name c ≠ target → ys !! name c = None)
         ∧ (is_compound c = true → plant_1_name c ≠ Some target →
            plant_2_name c ≠ Some target → ys !! name c = None))
    ∧ (∀ k, is_Some (ys !! k) → k ∈ name <$> crops self).
Proof.
  intros Hwf Hnd. eexists. split; [by apply get_target_yields_fold|]. split.
  - intros c Hc.
    rewrite (fold_record_yield_entry target (crops self) ∅ c Hnd Hc).
    rewrite lookup_empty.
    assert (∀ o : option Q,
              match o with Some y => Some y | None => None end = o) as ->
      by (by intros [?|]).
    unfold attributed. destruct (is_compound c) eqn:Hcomp.
    + destruct (crop_wf_compound c (Garden_wf_elem self c Hwf Hc) Hcomp)
        as (n1 & n2 & y1 & y2 & E1 & E2 & E3 & E4).
      split_and!; intros; try discriminate.
      * split; [by rewrite decide_True|]. rewrite E3. eauto.
      * split; [by rewrite decide_False, decide_True|]. rewrite E4. eauto.
      * by rewrite !decide_False.
    + split_and!; intros; try discriminate.
      * by rewrite decide_True.
      * by rewrite decide_False.
  - intros k [y Hk]. destruct (decide (k ∈ name <$> crops self)); [done|].
    rewrite fold_record_yield_other, lookup_empty in Hk by done. discriminate.
Qed.

Lemma get_target_yields_attribution_witness :
  ∃ ys : gmap string Q,
    get_target_yields tomato_garden "tomato" = Ok ys
    ∧ ys !! "tomato" = Some 5%Q
    ∧ ys !! "tomato-basil" = Some 8%Q
    ∧ ∀ k, is_Some (ys !! k) → k ∈ ["tomato"; "tomato-basil"].
Proof.
  destruct (get_target_yields_attribution tomato_garden "tomato")
    as (ys & Hys & Hentries & Hdom).
  - reflexivity.
  - apply (bool_decide_unpack _). vm_compute. exact I.
  - exists ys. split; [exact Hys|]. split; [|split; [|exact Hdom]].
    + apply (Hentries tomato); [apply list_elem_of_here|reflexivity..].
    + apply (Hentries tomato_basil);
        [apply list_elem_of_further, list_elem_of_here|reflexivity..].
Defined.

(** C3. When no crop has lifespan zero, catalog expansion appends to the
    base crops exactly one compound entry for every ordered pair of
    positions ([i], [j]) such that the crop [C] at [i] lists the name of
    the crop [P] at [j] among its companions: each such pair occurs once
    in [companion_pairs], and the entries, in order, are those of the pairs,
    with lifespan [max(C.lifespan, P.lifespan)], the two multipliers
    [lifespan // C.lifespan] and [lifespan // P.lifespan], and the yields,
    nitrogen delta, water use, flags, names and empty companions of
    [compound_entry_of]. *)
Theorem Garden_init_compound_entries (garden_file : GardenSchema)
  (plants : list Crop) :
  (∀ p, p ∈ plants → lifespan p ≠ 0) →
  ∃ compound : list Crop,
    Garden_init garden_file plants
      = Ok {| crops := (set_not_compound <$> plants) ++ compound;
              garden := garden_file |}
    ∧ NoDup (companion_pairs (set_not_compound <$> plants))
    ∧ (∀ i j, (i, j) ∈ companion_pairs (set_not_compound <$> plants)
              ↔ ∃ C P, (set_not_compound <$> plants) !! i = Some C
                       ∧ (set_not_compound <$> plants) !! j = Some P
                       ∧ name P ∈ companions C)
    ∧ Forall2 (fun ij e =>
                 ∃ C P, (set_not_compound <$> plants) !! ij.1 = Some C
                        ∧ (set_not_compound <$> plants) !! ij.2 = Some P
                        ∧ compound_entry_of C P e)
        (companion_pairs (set_not_compound <$> plants)) compound.
Proof.
  intros Hlife. set (base := set_not_compound <$> plants).
  assert (∀ c, c ∈ base → lifespan c ≠ 0) as Hbase.
  { intros c Hc. apply list_elem_of_fmap in Hc as (p & -> & Hp).
    cbn. by apply Hlife. }
  destruct (comprehension_total
              (fun C => comprehension (compound_crop C)
                          (filter (names_companion C) base)) base)
    as [yss Hyss].
  { intros C HC. apply comprehension_total. intros P HP.
    apply list_elem_of_filter in HP as [_ HP].
    apply compound_crop_Ok; by apply Hbase. }
  exists (concat yss). split_and!.
  - unfold Garden_init. fold base.
    rewrite generate_compound_crops_collect, Hyss. reflexivity.
  - by apply NoDup_companion_pairs_from.
  - intros i j. unfold companion_pairs.
    rewrite (elem_of_companion_pairs_from 0 base base i j) by done.
    unfold names_companion. split; [by intros [_ ?]|]. split; [lia|done].
  - apply companion_pairs_from_entries; [done|].
    by apply comprehension_Forall2.
Qed.

Lemma Garden_init_compound_entries_witness :
  ∃ compound : list Crop,
    Garden_init lettuce_params [crop_A; crop_B]
      = Ok {| crops := [crop_A; crop_B] ++ compound;
              garden := lettuce_params |}
    ∧ length compound = 2%nat.
Proof.
  destruct (Garden_init_compound_entries lettuce_params [crop_A; crop_B])
    as (compound & Hinit & _ & _ & Hentries).
  - intros p Hp.
    apply elem_of_cons in Hp as [->|Hp]; [discriminate|].
    apply list_elem_of_singleton in Hp as ->. discriminate.
  - exists compound. split; [exact Hinit|].
    apply Forall2_length in Hentries. rewrite <- Hentries. reflexivity.
Defined.

(** C9. A name in a companions list that no base crop bears is ignored:
    the expansion loops yield the same entries, or raise the same
    exception, as without it.  Every compound entry of the constructed
    catalog comes from two crops [C] and [P] of the catalog as it stood
    before the expansion, neither of them compound, with [P] named by [C];
    so no entry has a second component that is not a base crop's name. *)
Theorem Garden_init_unmatched_companion (garden_file : GardenSchema)
  (plants : list Crop) :
  generate_compound_crops
    (set_not_compound <$> (without_unmatched (name <$> plants) <$> plants))
  = generate_compound_crops (set_not_compound <$> plants)
  ∧ ∀ self, Garden_init garden_file plants = Ok self →
      ∃ compound : list Crop,
        crops self = (set_not_compound <$> plants) ++ compound
        ∧ (∀ e, e ∈ compound →
             ∃ C P, C ∈ set_not_compound <$> plants
                    ∧ P ∈ set_not_compound <$> plants
                    ∧ is_compound C = false ∧ is_compound P = false
                    ∧ name P ∈ companions C
                    ∧ compound_entry_of C P e)
        ∧ (∀ e n, e ∈ crops self → is_compound e = true →
             plant_2_name e = Some n → n ∈ name <$> plants).
Proof.
  split; [apply generate_compound_crops_without_unmatched|].
  intros self. unfold Garden_init.
  destruct (generate_compound_crops (set_not_compound <$> plants))
    as [compound|ex] eqn:Hgen; cbn; [|discriminate].
  intros [= <-]. cbn [crops].
  assert (∀ e, e ∈ compound →
            ∃ C P, C ∈ set_not_compound <$> plants
                   ∧ P ∈ set_not_compound <$> plants
                   ∧ is_compound C = false ∧ is_compound P = false
                   ∧ name P ∈ companions C
                   ∧ compound_entry_of C P e) as Hcompound.
  { intros e He.
    destruct (generate_compound_crops_elem _ _ _ Hgen He)
      as (C & P & HC & HP & Hnc & HCP).
    exists C, P. split_and!; try done.
    - apply list_elem_of_fmap in HC as (p & -> & _). reflexivity.
    - apply list_elem_of_fmap in HP as (p & -> & _). reflexivity.
    - by apply compound_crop_entry. }
  exists compound. split_and!; [done..|].
  intros e n He Hcomp Hn. apply elem_of_app in He as [He|He].
  - apply list_elem_of_fmap in He as (p & -> & _). discriminate.
  - destruct (Hcompound e He) as (C & P & _ & HP & _ & _ & _ & HCP).
    destruct HCP as (_ & _ & _ & _ & _ & _ & _ & _ & _ & _ & HP2 & _).
    rewrite HP2 in Hn. injection Hn as <-.
    apply list_elem_of_fmap in HP as (p & -> & Hp). cbn.
    by apply list_elem_of_fmap_2.
Qed.

Lemma Garden_init_unmatched_companion_witness :
  ∃ self : Garden,
    Garden_init lettuce_params [crop_A; crop_B] = Ok self
    ∧ "nobody" ∈ companions crop_A
    ∧ ∀ e, e ∈ crops self → is_compound e = true →
           plant_2_name e ≠ Some "nobody".
Proof.
  destruct Garden_init_A_B as (ab & ba & Hinit & _).
  eexists. split; [exact Hinit|]. split.
  - apply list_elem_of_further, list_elem_of_here.
  - intros e He Hcomp Hn.
    destruct (proj2 (Garden_init_unmatched_companion lettuce_params
                       [crop_A; crop_B]) _ Hinit)
      as (compound & _ & _ & Hnames).
    pose proof (Hnames e "nobody" He Hcomp Hn) as Hin. cbn in Hin.
    apply elem_of_cons in Hin as [Hin|Hin]; [discriminate|].
    apply list_elem_of_singleton in Hin. discriminate.
Defined.













(** * More of the code *)

(** X1. The constructor raises exactly when some crop names a companion
    present in the catalog and one of the two has lifespan zero, and the
    exception is then [ZeroDivisionError]; a crop of lifespan zero that
    takes part in no companion pair is accepted. *)
Theorem Garden_init_raises_iff (garden_file : GardenSchema)
  (plants : list Crop) :
  (∀ e, Garden_init garden_file plants = Raise e → e = ZeroDivisionError)
  ∧ ((∃ e, Garden_init garden_file plants = Raise e)
     ↔ ∃ C P, C ∈ plants ∧ P ∈ plants ∧ name P ∈ companions C
              ∧ (lifespan C = 0 ∨ lifespan P = 0)).
Proof.
  unfold Garden_init. split.
  - intros e.
    destruct (generate_compound_crops (set_not_compound <$> plants))
      as [compound|e'] eqn:Hgen; cbn; [discriminate|].
    intros [= ->]. by apply generate_compound_crops_Raise in Hgen as [-> _].
  - split.
    + intros [e He].
      destruct (generate_compound_crops (set_not_compound <$> plants))
        as [compound|e'] eqn:Hgen; cbn in He; [discriminate|].
      apply generate_compound_crops_Raise
        in Hgen as (_ & C & P & HC & HP & Hnc & Hzero).
      apply list_elem_of_fmap in HC as (c & -> & Hc).
      apply list_elem_of_fmap in HP as (p & -> & Hp).
      by exists c, p.
    + intros (c & p & Hc & Hp & Hnc & Hzero).
      destruct (generate_compound_crops_zero (set_not_compound <$> plants)
                  (set_not_compound c) (set_not_compound p))
        as [e He]; [by apply list_elem_of_fmap_2..|done|done|].
      rewrite He. cbn. by eexists.
Qed.



(** X3. In a constructed garden the non-compound plant names are the names
    of the plant files, in order, and they are the first names of
    [get_plants]; every other entry is compound. *)
Theorem get_non_compound_plant_names_init (garden_file : GardenSchema)
  (plants : list Crop) (self : Garden) :
  Garden_init garden_file plants = Ok self →
  get_non_compound_plant_names self = name <$> plants
  ∧ take (length plants) (get_plants self) = name <$> plants
  ∧ ∀ e, e ∈ drop (length plants) (crops self) → is_compound e = true.
Proof.
  intros Hinit.
  destruct (Garden_init_crops _ _ _ Hinit) as (compound & Hgen & ->).
  assert (∀ e, e ∈ compound → is_compound e = true) as Hcompound.
  { intros e He.
    destruct (generate_compound_crops_elem _ _ _ Hgen He)
      as (C & P & _ & _ & _ & HCP).
    apply compound_crop_entry in HCP. apply HCP. }
  assert (name <$> (set_not_compound <$> plants) = name <$> plants) as Hnames.
  { rewrite <- list_fmap_compose. by apply list_fmap_ext. }
  split_and!.
  - unfold get_non_compound_plant_names. cbn [crops].
    rewrite list.filter_app, filter_all, filter_none, app_nil_r; [done|..].
    + intros e He. by rewrite (Hcompound e He).
    + intros c Hc. by apply list_elem_of_fmap in Hc as (p & -> & _).
  - unfold get_plants. cbn [crops]. rewrite fmap_app, Hnames.
    rewrite take_app_length'; [done|by rewrite length_fmap].
  - cbn [crops]. intros e He.
    rewrite drop_app_length' in He by (by rewrite length_fmap).
    by apply Hcompound.
Qed.

Lemma get_non_compound_plant_names_init_witness :
  ∃ self, Garden_init lettuce_params [crop_A; crop_B] = Ok self
          ∧ get_non_compound_plant_names self = ["A"; "B"].
Proof.
  eexists. split; [vm_compute; reflexivity|].
  eapply (get_non_compound_plant_names_init lettuce_params [crop_A; crop_B]).
  vm_compute. reflexivity.
Defined.

(** X4. A crop that names itself as a companion is not rejected: the
    constructed catalog holds a compound entry of the crop with itself,
    with the crop's lifespan, both component yields equal to the crop's
    yield, and twice that as its yield. *)
Theorem Garden_init_self_companion (garden_file : GardenSchema)
  (plants : list Crop) (self : Garden) (C : Crop) :
  Garden_init garden_file plants = Ok self →
  C ∈ plants → name C ∈ companions C →
  ∃ e, e ∈ crops self
       ∧ is_compound e = true
       ∧ name e = name C +:+ "-" +:+ name C
       ∧ plant_1_name e = Some (name C)
       ∧ plant_2_name e = Some (name C)
       ∧ lifespan e = lifespan C
       ∧ plant_1_yield e = Some (1 * yield C)%Q
       ∧ plant_2_yield e = Some (1 * yield C)%Q
       ∧ yield e = (1 * yield C + 1 * yield C)%Q.
Proof.
  intros Hinit HC Hself.
  destruct (Garden_init_crops _ _ _ Hinit) as (compound & Hgen & ->).
  destruct (generate_compound_crops_entry _ _ (set_not_compound C)
              (set_not_compound C) Hgen) as (e & He & HCC);
    [by apply list_elem_of_fmap_2..|done|].
  exists e. split; [cbn; apply elem_of_app; by right|].
  revert HCC. unfold compound_crop, floordiv. cbn.
  destruct (decide (lifespan C = 0)) as [|Hne]; [discriminate|]. cbn.
  rewrite Z.max_id, Z.div_same by done. intros [= <-]. cbn.
  by split_and!.
Qed.

Lemma Garden_init_self_companion_witness :
  ∃ e, e ∈ [base_crop "mint" ["mint"] 3 2 false;
            {| name := "mint-mint"; companions := []; greywater_ok := true;
               yield := 1 * 2 + 1 * 2; water_use := 1 + 1;
               delta_n := 0 * 1 + 0 * 1; lifespan := 3;
               is_cover_crop := false; is_compound := true;
               plant_1_yield := Some (1 * 2)%Q;
               plant_2_yield := Some (1 * 2)%Q;
               plant_1_name := Some "mint"; plant_2_name := Some "mint" |}]
       ∧ name e = "mint-mint" ∧ lifespan e = 3
       ∧ yield e = (1 * 2 + 1 * 2)%Q.
Proof.
  destruct (Garden_init_self_companion lettuce_params
              [base_crop "mint" ["mint"] 3 2 false] _
              (base_crop "mint" ["mint"] 3 2 false) eq_refl)
    as (e & He & _ & Hname & _ & _ & Hlife & _ & _ & Hyield).
  - apply list_elem_of_here.
  - apply list_elem_of_here.
  - exists e. split; [exact He|]. split; [exact Hname|].
    split; [exact Hlife|exact Hyield].
Defined.

(** X5. For two crops of positive lifespan the compound entry repeats each
    component as often as fits in the longer of the two lifespans: each
    multiplier [m] is at least 1 and satisfies
    [m * lifespan <= compound lifespan < (m + 1) * lifespan], and the
    component with the longer lifespan has multiplier 1. *)
Theorem compound_crop_multipliers (C P e : Crop) :
  0 < lifespan C → 0 < lifespan P → compound_crop C P = Ok e →
  ∃ mC mP : Z,
    plant_1_yield e = Some (inject_Z mC * yield C)%Q
    ∧ plant_2_yield e = Some (inject_Z mP * yield P)%Q
    ∧ delta_n e = (delta_n C * inject_Z mC + delta_n P * inject_Z mP)%Q
    ∧ 1 ≤ mC ∧ 1 ≤ mP
    ∧ mC * lifespan C ≤ lifespan e < (mC + 1) * lifespan C
    ∧ mP * lifespan P ≤ lifespan e < (mP + 1) * lifespan P
    ∧ (lifespan P ≤ lifespan C → mC = 1)
    ∧ (lifespan C ≤ lifespan P → mP = 1).
Proof.
  intros HC HP. unfold compound_crop, floordiv.
  rewrite !decide_False by lia. cbn. intros [= <-]. cbn.
  set (L := Z.max (lifespan C) (lifespan P)).
  exists (L `div` lifespan C), (L `div` lifespan P).
  pose proof (Z.mul_div_le L (lifespan C) HC).
  pose proof (Z.mul_succ_div_gt L (lifespan C) HC).
  pose proof (Z.mul_div_le L (lifespan P) HP).
  pose proof (Z.mul_succ_div_gt L (lifespan P) HP).
  assert (1 ≤ L `div` lifespan C)
    by (apply Z.div_le_lower_bound; lia).
  assert (1 ≤ L `div` lifespan P)
    by (apply Z.div_le_lower_bound; lia).
  split_and!; try done; try lia.
  - intros Hle. replace L with (lifespan C) by lia. by apply Z.div_same, Z.neq_sym, Z.lt_neq.
  - intros Hle. replace L with (lifespan P) by lia. by apply Z.div_same, Z.neq_sym, Z.lt_neq.
Qed.

Lemma compound_crop_multipliers_witness :
  ∃ mC mP : Z, mC = 1 ∧ mP * 2 ≤ 4 < (mP + 1) * 2.
Proof.
  destruct (compound_crop_multipliers crop_A crop_B _ eq_refl eq_refl eq_refl)
    as (mC & mP & _ & _ & _ & _ & _ & _ & HmP & HmC & _).
  exists mC, mP. split; [|exact HmP]. apply HmC. cbn. lia.
Defined.

(** X6. A crop whose lifespan is zero or negative is alive in no week: the
    Temporal Overlap Resolver returns the empty list for every week and
    every dictionary of variables, without reading a variable, so the crop
    takes no land and no water in any week of the model. *)
Theorem get_plants_living_in_week_nonpositive (crop : Crop) (week : Z)
  (plant_vars : gmap string LpVariable) :
  lifespan crop ≤ 0 →
  get_plants_living_in_week crop week plant_vars = Ok []
  ∧ ∀ x, alive_area x crop week = 0%Q.
Proof.
  intros HL. split.
  - unfold get_plants_living_in_week, get_variable_names_for_weeks, range.
    rewrite seqZ_nil; [reflexivity|]. case_decide; lia.
  - intros x. unfold alive_area, alive_vars, alive_weeks.
    rewrite interval_nil by lia. reflexivity.
Qed.

Lemma get_plants_living_in_week_nonpositive_witness :
  get_plants_living_in_week (base_crop "stone" [] 0 1 false) 3 ∅ = Ok [].
Proof.
  apply (get_plants_living_in_week_nonpositive
           (base_crop "stone" [] 0 1 false) 3 ∅).
  cbn. lia.
Defined.

(** X7. Without assuming unique names: the keys of the mapping that
    [get_target_yields] returns are exactly the names of the entries that
    contribute to the target, and where several contributing entries share
    a name the value is that of the last one in catalog order. *)
Theorem get_target_yields_last_wins (self : Garden) (target : string) :
  Garden_wf self →
  ∃ ys : gmap string Q,
    get_target_yields self target = Ok ys
    ∧ (∀ k, is_Some (ys !! k)
            ↔ ∃ c, c ∈ crops self ∧ name c = k
                   ∧ is_Some (attributed target c))
    ∧ (∀ before c after y,
         crops self = before ++ c :: after →
         attributed target c = Some y →
         (∀ c', c' ∈ after → name c' = name c →
                attributed target c' = None) →
         ys !! name c = Some y).
Proof.
  intros Hwf. eexists. split; [by apply get_target_yields_fold|]. split.
  - intros k. rewrite fold_record_yield_is_Some, lookup_empty.
    split; [intros [[? ?]|?]; done|by right].
  - intros before c after y -> Hy Hafter.
    rewrite foldl_app. cbn [foldl].
    rewrite fold_record_yield_silent by done.
    unfold record_yield. rewrite Hy. apply lookup_insert_eq.
Qed.

Lemma get_target_yields_last_wins_witness :
  ∃ ys : gmap string Q,
    get_target_yields
      {| crops := [tomato; base_crop "tomato" [] 4 7 false];
         garden := lettuce_params |} "tomato" = Ok ys
    ∧ ys !! "tomato" = Some 7%Q.
Proof.
  destruct (get_target_yields_last_wins
              {| crops := [tomato; base_crop "tomato" [] 4 7 false];
                 garden := lettuce_params |} "tomato")
    as (ys & Hys & _ & Hlast).
  - reflexivity.
  - exists ys. split; [exact Hys|].
    apply (Hlast [tomato] (base_crop "tomato" [] 4 7 false) []);
      [reflexivity..|].
    intros c' Hc'. by apply elem_of_nil in Hc'.
Defined.

(** X8. On a constructed garden [get_target_yields] never raises, and for
    a target that is the name of no plant file it returns the empty
    mapping: an unknown target is not an error. *)
Theorem get_target_yields_unknown_target (garden_file : GardenSchema)
  (plants : list Crop) (self : Garden) (target : string) :
  Garden_init garden_file plants = Ok self →
  (∃ ys, get_target_yields self target = Ok ys)
  ∧ (target ∉ name <$> plants → get_target_yields self target = Ok ∅).
Proof.
  intros Hinit. pose proof (Garden_init_wf _ _ _ Hinit) as Hwf.
  rewrite get_target_yields_fold by done. split; [by eexists|].
  intros Hunknown. f_equal. apply fold_record_yield_none. intros e He.
  destruct (Garden_init_crops _ _ _ Hinit) as (compound & Hgen & ->).
  cbn in He. apply elem_of_app in He as [He|He].
  - apply list_elem_of_fmap in He as (p & -> & Hp).
    unfold attributed. cbn. rewrite decide_False; [done|].
    intros <-. apply Hunknown. by apply list_elem_of_fmap_2.
  - destruct (generate_compound_crops_elem _ _ _ Hgen He)
      as (C & P & HC & HP & _ & HCP).
    apply compound_crop_entry in HCP.
    destruct HCP as (_ & _ & _ & _ & _ & _ & _ & _ & _ & H1 & H2 & Hcomp & _).
    apply list_elem_of_fmap in HC as (c & -> & Hc).
    apply list_elem_of_fmap in HP as (p & -> & Hp).
    unfold attributed. rewrite Hcomp, H1, H2. cbn.
    rewrite !decide_False; [done|..];
      intros [= <-]; apply Hunknown; by apply list_elem_of_fmap_2.
Qed.

Lemma get_target_yields_unknown_target_witness :
  get_target_yields
    {| crops := [lettuce]; garden := lettuce_params |} "ghost" = Ok ∅.
Proof.
  apply (get_target_yields_unknown_target lettuce_params [lettuce]
           {| crops := [lettuce]; garden := lettuce_params |} "ghost").
  - reflexivity.
  - intros Hin. apply list_elem_of_singleton in Hin. discriminate.
Defined.





(** X11. The name of a planting variable determines the crop name and
    the week.  The dictionary [plant_vars] that [setup_problem] returns has
    exactly the keys of the crops of the catalog at the weeks of the
    horizon, each bound to its own variable; when the names of the catalog
    are unique it holds one variable per crop and week. *)
Theorem plant_vars_one_per_crop_week (self : Garden) (prob : LpProblem)
  (total_yield nitrogen_expression : LpAffineExpression)
  (plant_vars : gmap string LpVariable) (fallow_vars : gmap Z LpVariable) :
  setup_problem (weeks (garden self)) self
    = Ok (prob, total_yield, nitrogen_expression, plant_vars, fallow_vars) →
  (∀ n p n' p',
     get_plant_variable_name n p = get_plant_variable_name n' p' →
     n = n' ∧ p = p')
  ∧ (∀ key v,
       plant_vars !! key = Some v
       ↔ v = planted key
         ∧ ∃ n p, n ∈ get_plants self ∧ 0 ≤ p < weeks (garden self)
                  ∧ key = get_plant_variable_name n p)
  ∧ (NoDup (get_plants self) →
     size plant_vars
     = (length (crops self) * Z.to_nat (weeks (garden self)))%nat).
Proof.
  intros Hsetup. apply setup_problem_vars in Hsetup as [-> _]. split_and!.
  - intros n p n' p'. apply get_plant_variable_name_eq.
  - intros key v. unfold plant_vars_of.
    rewrite LpVariable_dicts_lookup_iff, elem_of_get_plant_weeks_iff. tauto.
  - intros Hnd. unfold plant_vars_of.
    rewrite LpVariable_dicts_size by (by apply NoDup_get_plant_weeks).
    apply length_get_plant_weeks.
Qed.

Lemma plant_vars_one_per_crop_week_witness :
  ∃ plant_vars : gmap string LpVariable,
    size plant_vars = 4%nat
    ∧ plant_vars !! "lettuce_week_3" = Some (planted "lettuce_week_3")
    ∧ plant_vars !! "lettuce_week_4" = None.
Proof.
  eassert (setup_problem 4 lettuce_garden = Ok (_, _, _, _, _)) as Hsetup
    by (vm_compute; reflexivity).
  destruct (plant_vars_one_per_crop_week lettuce_garden _ _ _ _ _ Hsetup)
    as (_ & Hkeys & Hsize).
  eexists. split_and!.
  - apply Hsize. apply (bool_decide_unpack _). vm_compute. exact I.
  - apply Hkeys. split; [reflexivity|]. exists "lettuce", 3.
    split_and!; [apply list_elem_of_here|lia|cbn; lia|reflexivity].
  - vm_compute. reflexivity.
Defined.

(** X12. For a crop of the catalog with lifespan at least 1, looked up in
    the variables of the model: a negative week gives the empty list, a
    week of the horizon gives the variables of the plantings alive in it,
    and a week at or after the end of the horizon raises [KeyError]. *)
Theorem get_plants_living_in_week_bounds (self : Garden) (c : Crop) (w : Z) :
  c ∈ crops self → 1 ≤ lifespan c →
  (w < 0 → get_plants_living_in_week c w (plant_vars_of self) = Ok [])
  ∧ (0 ≤ w < weeks (garden self) →
     get_plants_living_in_week c w (plant_vars_of self)
       = Ok (planting (name c) <$> interval (Z.max 0 (w - lifespan c + 1)) w))
  ∧ (0 ≤ w → weeks (garden self) ≤ w →
     get_plants_living_in_week c w (plant_vars_of self) = Raise KeyError).
Proof.
  intros Hc HL. split_and!.
  - intros Hw. unfold get_plants_living_in_week,
      get_variable_names_for_weeks, range.
    rewrite seqZ_nil; [reflexivity|]. case_decide; lia.
  - intros Hw. apply get_plants_living_in_week_model; [done|lia].
  - intros Hw0 Hw. unfold get_plants_living_in_week.
    apply (comprehension_getitem_missing _ _
             (get_plant_variable_name (name c) w)).
    + unfold get_variable_names_for_weeks. apply list_elem_of_fmap.
      exists w. split; [done|]. apply elem_of_range. case_decide; lia.
    + apply plant_vars_of_lookup_None. lia.
Qed.

Lemma get_plants_living_in_week_bounds_witness :
  get_plants_living_in_week lettuce 4 (plant_vars_of lettuce_garden)
  = Raise KeyError.
Proof.
  apply (get_plants_living_in_week_bounds lettuce_garden lettuce 4).
  - apply list_elem_of_here.
  - cbn. lia.
  - lia.
  - cbn. lia.
Defined.

(** X13. [setup_problem] reads the horizon from two places, the global
    [num_weeks] and the garden's [weeks]: with a catalog that is not empty
    and a [num_weeks] beyond the garden's weeks it raises [KeyError]. *)
Theorem setup_problem_num_weeks_mismatch (num_weeks : Z) (self : Garden) :
  crops self ≠ [] → Z.max 0 (weeks (garden self)) < num_weeks →
  setup_problem num_weeks self = Raise KeyError.
Proof.
  intros Hcrops Hweeks. unfold setup_problem.
  fold (plant_vars_of self).
  assert (comprehension (fun c =>
              vs ← comprehension
                     (fun c_w => getitem (plant_vars_of self !! c_w))
                     (get_weeks_for_plant self c);
              Ok (Scale (yield c) (lpSum_vars vs)))
            (crops self)
          = Ok ((fun c => Scale (yield c)
                   (lpSum_vars (planted_vars (weeks (garden self)) c)))
                  <$> crops self)) as ->
    by exact (yield_terms_model self yield).
  cbn [mbind Result_bind].
  destruct (crops self) as [|c cs] eqn:Hcs; [done|].
  cbn [comprehension].
  rewrite (comprehension_getitem_missing (plant_vars_of self) _
             (get_plant_variable_name (name c)
                (Z.max 0 (weeks (garden self))))).
  - reflexivity.
  - unfold get_variable_names_for_weeks. apply list_elem_of_fmap.
    eexists. split; [done|]. apply elem_of_range. lia.
  - apply plant_vars_of_lookup_None. lia.
Qed.

Lemma setup_problem_num_weeks_mismatch_witness :
  setup_problem 5 lettuce_garden = Raise KeyError.
Proof.
  apply (setup_problem_num_weeks_mismatch 5 lettuce_garden).
  - discriminate.
  - cbn. lia.
Defined.







(** ** The report *)

(** X17. The rows of the plantings sheet.  When every catalog entry lives
    for at least one week, no cell of the sheet raises: for every name [c]
    among [unique_crops] and every week [w] of the horizon the cell holds a
    planting instruction exactly when the area planted in week [w] is at
    least 0.1, followed by a harvest instruction exactly when the week
    [w + 1 - lifespan] is not negative and the area planted in it is more
    than 0.1; the row is labelled in week 0 only. *)
Theorem plantings_cell_instructions (x : LpVariable -> Q)
  (round_ : Q -> Z -> Q) (self : Garden) (prob : LpProblem)
  (total_yield nitrogen_expression : LpAffineExpression)
  (plant_vars : gmap string LpVariable) (fallow_vars : gmap Z LpVariable)
  (mapping : gmap string (gmap string Q)) (c : string) (w : Z) :
  Garden_wf self →
  (∀ e, e ∈ crops self → 1 ≤ lifespan e) →
  setup_problem (weeks (garden self)) self
  = Ok (prob, total_yield, nitrogen_expression, plant_vars, fallow_vars) →
  crop_mapping self = Ok mapping →
  c ∈ unique_crops mapping → 0 ≤ w < weeks (garden self) →
  ∃ crop label,
    get_crop_by_name self c = Ok crop
    ∧ pretty_name c = Ok label
    ∧ plantings_cell x round_ self plant_vars c w
      = Ok {| row_label := if decide (w = 0) then Some label else None;
              instructions :=
                plant_instruction x round_ c w
                ++ harvest_instruction x round_ c (lifespan crop) w |}.
Proof.
  intros Hwf Hlife Hsetup Hmapping Hc Hw.
  rewrite (setup_problem_explicit self Hwf) in Hsetup.
  injection Hsetup as _ _ _ <- _.
  apply (unique_crops_names self mapping c Hwf Hmapping) in Hc.
  destruct (get_crop_by_name_Ok self c Hc) as (crop & Hcrop & Hin & <-).
  destruct (plantings_cell_explicit x round_ self crop w Hcrop Hw
              (Hlife crop Hin)) as (label & Hlabel & Hcell).
  by exists crop, label.
Qed.

Lemma plantings_cell_instructions_witness :
  ∃ crop label,
    get_crop_by_name tomato_garden "tomato-basil" = Ok crop
    ∧ pretty_name "tomato-basil" = Ok label
    ∧ plantings_cell (fun _ => 1%Q) (fun q _ => q) tomato_garden
        (plant_vars_of tomato_garden) "tomato-basil" 3
      = Ok {| row_label := if decide (3 = 0) then Some label else None;
              instructions :=
                plant_instruction (fun _ => 1%Q) (fun q _ => q)
                  "tomato-basil" 3
                ++ harvest_instruction (fun _ => 1%Q) (fun q _ => q)
                     "tomato-basil" (lifespan crop) 3 |}.
Proof.
  eassert (setup_problem (weeks (garden tomato_garden)) tomato_garden
           = Ok (_, _, _, plant_vars_of tomato_garden, _)) as Hsetup
    by (vm_compute; reflexivity).
  eassert (crop_mapping tomato_garden = Ok _) as Hmapping
    by (vm_compute; reflexivity).
  eapply (plantings_cell_instructions _ _ tomato_garden _ _ _ _ _ _
            "tomato-basil" 3 _ _ Hsetup Hmapping); [|cbn; lia].
  apply (bool_decide_unpack _). vm_compute. exact I.
  Unshelve.
  - vm_compute. reflexivity.
  - intros e He. cbn in He.
    apply elem_of_cons in He as [-> | He]; [cbn; lia|].
    apply elem_of_cons in He as [-> | He]; [cbn; lia|].
    by apply not_elem_of_nil in He.
Defined.

(** X18. A catalog entry whose lifespan is zero or negative makes the
    report fail: in a week [w] of the horizon with
    [w + 1 - lifespan >= weeks], the final week among them, the cell of
    the crop looks up a planting variable beyond the horizon and raises
    [KeyError], although the model itself was built. *)
Theorem plantings_cell_raises_KeyError (x : LpVariable -> Q)
  (round_ : Q -> Z -> Q) (self : Garden) (prob : LpProblem)
  (total_yield nitrogen_expression : LpAffineExpression)
  (plant_vars : gmap string LpVariable) (fallow_vars : gmap Z LpVariable)
  (crop : Crop) (w : Z) :
  Garden_wf self →
  setup_problem (weeks (garden self)) self
  = Ok (prob, total_yield, nitrogen_expression, plant_vars, fallow_vars) →
  get_crop_by_name self (name crop) = Ok crop →
  0 ≤ w < weeks (garden self) →
  weeks (garden self) ≤ w + 1 - lifespan crop →
  plantings_cell x round_ self plant_vars (name crop) w = Raise KeyError.
Proof.
  intros Hwf Hsetup Hcrop Hw Hlife.
  rewrite (setup_problem_explicit self Hwf) in Hsetup.
  injection Hsetup as _ _ _ <- _.
  by apply plantings_cell_KeyError.
Qed.

Lemma plantings_cell_raises_KeyError_witness :
  plantings_cell (fun _ => 1%Q) (fun q _ => q)
    {| crops := [base_crop "stone" [] 0 1 false]; garden := lettuce_params |}
    (plant_vars_of {| crops := [base_crop "stone" [] 0 1 false];
                      garden := lettuce_params |})
    "stone" 3
  = Raise KeyError.
Proof.
  eassert (setup_problem 4
             {| crops := [base_crop "stone" [] 0 1 false];
                garden := lettuce_params |}
           = Ok (_, _, _, _, _)) as Hsetup by (vm_compute; reflexivity).
  apply (plantings_cell_raises_KeyError _ _
           {| crops := [base_crop "stone" [] 0 1 false];
              garden := lettuce_params |} _ _ _ _ _
           (base_crop "stone" [] 0 1 false) 3
           ltac:(vm_compute; reflexivity) Hsetup);
    [vm_compute; reflexivity|cbn; lia|cbn; lia].
Defined.

(** X19. A harvest is reported in the last week in which the planting
    occupies land.  For a crop that lives at least one week, a harvest
    instruction in the cell of week [w] names the planting week
    [w + 1 - lifespan], whose area exceeds 0.1; that planting is the
    earliest of those that [get_plants_living_in_week] counts for week
    [w], and it is not among those of week [w + 1]. *)
Theorem harvest_in_last_living_week (x : LpVariable -> Q)
  (round_ : Q -> Z -> Q) (self : Garden) (prob : LpProblem)
  (total_yield nitrogen_expression : LpAffineExpression)
  (plant_vars : gmap string LpVariable) (fallow_vars : gmap Z LpVariable)
  (crop : Crop) (w : Z) (cell : Cell) (area : Q) (p : Z) :
  Garden_wf self →
  setup_problem (weeks (garden self)) self
  = Ok (prob, total_yield, nitrogen_expression, plant_vars, fallow_vars) →
  get_crop_by_name self (name crop) = Ok crop →
  1 ≤ lifespan crop →
  plantings_cell x round_ self plant_vars (name crop) w = Ok cell →
  Harvest area p ∈ instructions cell →
  p = w + 1 - lifespan crop
  ∧ (1#10 < x (planting (name crop) p))%Q
  ∧ (∃ later, get_plants_living_in_week crop w plant_vars
              = Ok (planting (name crop) p :: later))
  ∧ ∀ living, get_plants_living_in_week crop (w + 1) plant_vars = Ok living →
              planting (name crop) p ∉ living.
Proof.
  intros Hwf Hsetup Hcrop Hlife Hcell Harvest_.
  rewrite (setup_problem_explicit self Hwf) in Hsetup.
  injection Hsetup as _ _ _ <- _.
  destruct (get_crop_by_name_elem _ _ _ Hcrop) as [Hin _].
  destruct (plantings_cell_inv x round_ self crop w cell Hcrop Hcell)
    as [Hw Hinstr].
  rewrite Hinstr in Harvest_.
  apply elem_of_Harvest in Harvest_ as (Hp & Hp0 & Hx).
  split_and!; [done|done| |].
  - rewrite get_plants_living_in_week_model by (done || lia).
    unfold alive_vars, alive_weeks.
    replace (Z.max 0 (w - lifespan crop + 1)) with p by lia.
    rewrite interval_cons by lia. by eexists.
  - intros living Hliving Hp_in.
    assert (∀ q, planting (name crop) q ∈ living →
                 Z.max 0 (w + 1 - lifespan crop + 1) ≤ q) as Hbound.
    { destruct (decide (w + 1 < weeks (garden self))) as [Hlt|Hlt].
      - rewrite get_plants_living_in_week_model in Hliving by (done || lia).
        injection Hliving as <-. intros q Hq.
        unfold alive_vars in Hq.
        apply list_elem_of_fmap in Hq as (q' & Heq & Hq').
        apply planting_eq in Heq as [_ ->].
        unfold alive_weeks in Hq'. apply elem_of_interval in Hq'. lia.
      - unfold get_plants_living_in_week in Hliving.
        apply comprehension_Forall2 in Hliving.
        assert (get_plant_variable_name (name crop) (w + 1)
                  ∈ get_variable_names_for_weeks (name crop)
                      (if decide (w + 1 - lifespan crop + 1 < 0) then 0
                       else w + 1 - lifespan crop + 1) (w + 1 + 1)) as Hlast.
        { unfold get_variable_names_for_weeks. apply list_elem_of_fmap.
          exists (w + 1). split; [done|]. apply elem_of_range.
          case_decide; lia. }
        destruct (Forall2_elem_of_l _ _ _ _ Hliving Hlast) as (v & _ & Hv).
        rewrite plant_vars_of_lookup_None in Hv by lia. discriminate. }
    apply Hbound in Hp_in. lia.
Qed.

Lemma harvest_in_last_living_week_witness :
  1 = 2 + 1 - lifespan lettuce
  ∧ (1#10 < (fun _ : LpVariable => 1%Q) (planting (name lettuce) 1))%Q
  ∧ (∃ later, get_plants_living_in_week lettuce 2
                (plant_vars_of lettuce_garden)
              = Ok (planting (name lettuce) 1 :: later))
  ∧ ∀ living, get_plants_living_in_week lettuce (2 + 1)
                (plant_vars_of lettuce_garden) = Ok living →
              planting (name lettuce) 1 ∉ living.
Proof.
  eassert (setup_problem 4 lettuce_garden = Ok (_, _, _, _, _)) as Hsetup
    by (vm_compute; reflexivity).
  eassert (plantings_cell (fun _ => 1%Q) (fun q _ => q) lettuce_garden
             (plant_vars_of lettuce_garden) (name lettuce) 2 = Ok _)
    as Hcell by (vm_compute; reflexivity).
  apply (harvest_in_last_living_week (fun _ => 1%Q) (fun q _ => q)
           lettuce_garden _ _ _ _ _ lettuce 2 _ 1%Q 1
           ltac:(vm_compute; reflexivity) Hsetup
           ltac:(vm_compute; reflexivity) ltac:(cbn; lia) Hcell).
  cbn [instructions]. apply list_elem_of_further, list_elem_of_here.
Defined.

(** X20. The two thresholds of the report differ.  A planting of exactly
    0.1 is reported as planted, in the cell of its week, but no cell of the
    sheet ever reports it as harvested: planting needs an area of at least
    0.1, harvesting an area of more than 0.1. *)
Theorem planting_at_threshold_never_harvested (x : LpVariable -> Q)
  (round_ : Q -> Z -> Q) (self : Garden) (prob : LpProblem)
  (total_yield nitrogen_expression : LpAffineExpression)
  (plant_vars : gmap string LpVariable) (fallow_vars : gmap Z LpVariable)
  (crop : Crop) (p : Z) :
  Garden_wf self →
  setup_problem (weeks (garden self)) self
  = Ok (prob, total_yield, nitrogen_expression, plant_vars, fallow_vars) →
  get_crop_by_name self (name crop) = Ok crop →
  1 ≤ lifespan crop → 0 ≤ p < weeks (garden self) →
  (x (planting (name crop) p) == 1#10)%Q →
  (∃ cell, plantings_cell x round_ self plant_vars (name crop) p = Ok cell
           ∧ Plant (round_ (x (planting (name crop) p)) 1)
               ∈ instructions cell)
  ∧ ∀ w cell area,
      plantings_cell x round_ self plant_vars (name crop) w = Ok cell →
      Harvest area p ∉ instructions cell.
Proof.
  intros Hwf Hsetup Hcrop Hlife Hp Hx.
  rewrite (setup_problem_explicit self Hwf) in Hsetup.
  injection Hsetup as _ _ _ <- _. split.
  - destruct (plantings_cell_explicit x round_ self crop p Hcrop Hp Hlife)
      as (label & _ & Hcell).
    eexists. split; [exact Hcell|]. cbn [instructions].
    apply elem_of_app. left. unfold plant_instruction.
    rewrite decide_True by (rewrite Hx; apply Qle_refl).
    apply list_elem_of_here.
  - intros w cell area Hcell Hin.
    destruct (plantings_cell_inv x round_ self crop w cell Hcrop Hcell)
      as [_ Hinstr].
    rewrite Hinstr in Hin. apply elem_of_Harvest in Hin as (_ & _ & Hlt).
    rewrite Hx in Hlt. by apply Qlt_irrefl in Hlt.
Qed.

Lemma planting_at_threshold_never_harvested_witness :
  (∃ cell, plantings_cell (fun _ => 1#10) (fun q _ => q) lettuce_garden
             (plant_vars_of lettuce_garden) (name lettuce) 1 = Ok cell
           ∧ Plant ((fun q (_ : Z) => q)
                      ((fun _ : LpVariable => 1#10)
                         (planting (name lettuce) 1)) 1)
               ∈ instructions cell)
  ∧ ∀ w cell area,
      plantings_cell (fun _ => 1#10) (fun q _ => q) lettuce_garden
        (plant_vars_of lettuce_garden) (name lettuce) w = Ok cell →
      Harvest area 1 ∉ instructions cell.
Proof.
  eassert (setup_problem 4 lettuce_garden = Ok (_, _, _, _, _)) as Hsetup
    by (vm_compute; reflexivity).
  apply (planting_at_threshold_never_harvested (fun _ => 1#10)
           (fun q _ => q) lettuce_garden _ _ _ _ _ lettuce 1
           ltac:(vm_compute; reflexivity) Hsetup
           ltac:(vm_compute; reflexivity) ltac:(cbn; lia) ltac:(cbn; lia)
           ltac:(reflexivity)).
Defined.

(** X21. The rows of the report of a constructed garden.  [crop_mapping]
    does not raise, it has one entry for every non-compound plant name, and
    [unique_crops] holds the name of every entry of the catalog, base and
    compound: each of them gets a row in the plantings sheet. *)
Theorem unique_crops_init (garden_file : GardenSchema) (plants : list Crop)
  (self : Garden) :
  Garden_init garden_file plants = Ok self →
  ∃ mapping,
    crop_mapping self = Ok mapping
    ∧ dom mapping = list_to_set (get_non_compound_plant_names self)
    ∧ (∀ p t_yields, mapping !! p = Some t_yields →
                     get_target_yields self p = Ok t_yields)
    ∧ unique_crops mapping = list_to_set (get_plants self).
Proof.
  intros Hinit. pose proof (Garden_init_wf _ _ _ Hinit) as Hwf.
  eexists. split; [by apply crop_mapping_explicit|]. split_and!.
  - apply set_eq. intros p. rewrite elem_of_dom, elem_of_list_to_set.
    rewrite foldl_insert_lookup. case_decide as Hp.
    + split; [done|by eexists].
    + rewrite lookup_empty. split; [by intros [? ?]|done].
  - intros p t_yields. rewrite foldl_insert_lookup.
    case_decide as Hp; [|by rewrite lookup_empty].
    intros [= <-]. by apply get_target_yields_fold.
  - apply set_eq. intros c. rewrite elem_of_list_to_set.
    rewrite (elem_of_unique_crops_mapping self _ c Hwf
               (crop_mapping_explicit self Hwf)).
    split.
    + intros (e & p & He & <- & _). by apply elem_of_get_plants.
    + unfold get_plants. intros Hc.
      apply list_elem_of_fmap in Hc as (e & -> & He).
      destruct (Garden_init_attributed _ _ _ e Hinit He) as (p & Hp & Hatt).
      by exists e, p.
Qed.

Lemma unique_crops_init_witness :
  ∃ self mapping,
    Garden_init lettuce_params [crop_A; crop_B] = Ok self
    ∧ crop_mapping self = Ok mapping
    ∧ unique_crops mapping = list_to_set (get_plants self).
Proof.
  eassert (Garden_init lettuce_params [crop_A; crop_B] = Ok _) as Hinit
    by (vm_compute; reflexivity).
  destruct (unique_crops_init lettuce_params [crop_A; crop_B] _ Hinit)
    as (mapping & Hmapping & _ & _ & Hunique).
  eexists _, mapping. split; [exact Hinit|]. by split.
Defined.

(** X22. The label of a row.  [pretty_name] never raises.  A name without
    a hyphen labels its row itself; of a name made of two or more parts
    joined by hyphens the label keeps the first two, as [a with b], and
    drops every further part. *)
Theorem pretty_name_join (a b : string) (rest : list string) :
  Forall (fun part => contains_hyphen part = false) (a :: b :: rest) →
  pretty_name a = Ok a
  ∧ pretty_name (join_hyphen (a :: b :: rest)) = Ok (a +:+ " with " +:+ b)
  ∧ ∀ c, ∃ label, pretty_name c = Ok label.
Proof.
  intros Hparts. split_and!.
  - unfold pretty_name. inversion Hparts as [|? ? Ha _]; subst.
    by rewrite Ha.
  - by apply pretty_name_parts.
  - apply pretty_name_Ok.
Qed.

Lemma pretty_name_join_witness :
  pretty_name "sweet" = Ok "sweet"
  ∧ pretty_name "sweet-corn-bean" = Ok "sweet with corn"
  ∧ ∀ c, ∃ label, pretty_name c = Ok label.
Proof.
  apply (pretty_name_join "sweet" "corn" ["bean"]).
  repeat constructor.
Defined.

(** X23. In a garden constructed from plant files whose names hold no
    hyphen, the row of every compound entry is labelled with the names of
    its two plants: [<plant_1_name> with <plant_2_name>]. *)
Theorem compound_row_label (garden_file : GardenSchema) (plants : list Crop)
  (self : Garden) (e : Crop) :
  Garden_init garden_file plants = Ok self →
  (∀ p, p ∈ plants → contains_hyphen (name p) = false) →
  e ∈ crops self → is_compound e = true →
  ∃ p1 p2, plant_1_name e = Some p1 ∧ plant_2_name e = Some p2
           ∧ pretty_name (name e) = Ok (p1 +:+ " with " +:+ p2).
Proof.
  intros Hinit Hnames He Hcomp.
  destruct (Garden_init_crops _ _ _ Hinit) as (compound & Hgen & ->).
  cbn [crops] in He.
  assert (∀ b, b ∈ set_not_compound <$> plants →
               is_compound b = false ∧ contains_hyphen (name b) = false)
    as Hbase.
  { intros b Hb. apply list_elem_of_fmap in Hb as (q & -> & Hq).
    split; [done|]. cbn [set_not_compound name]. by apply Hnames. }
  apply elem_of_app in He as [He|He].
  { destruct (Hbase e He) as [Hfalse _]. congruence. }
  destruct (generate_compound_crops_elem _ _ _ Hgen He)
    as (C & P & HC & HP & _ & HCP).
  apply compound_crop_entry in HCP
    as (_ & _ & _ & _ & _ & _ & _ & _ & Hname & Hp1 & Hp2 & _).
  exists (name C), (name P). split_and!; [done..|]. rewrite Hname.
  apply (pretty_name_parts (name C) (name P) []).
  repeat constructor; by apply Hbase.
Qed.

Lemma compound_row_label_witness :
  ∃ self e p1 p2,
    Garden_init lettuce_params [crop_A; crop_B] = Ok self
    ∧ e ∈ crops self ∧ is_compound e = true
    ∧ plant_1_name e = Some p1 ∧ plant_2_name e = Some p2
    ∧ pretty_name (name e) = Ok (p1 +:+ " with " +:+ p2).
Proof.
  eassert (Garden_init lettuce_params [crop_A; crop_B] = Ok _) as Hinit
    by (vm_compute; reflexivity).
  eassert (compound_crop crop_A crop_B = Ok _) as Hentry
    by (vm_compute; reflexivity).
  match type of Hinit with _ = Ok ?self =>
  match type of Hentry with _ = Ok ?e =>
    assert (e ∈ crops self) as He
      by (cbn [crops];
          apply list_elem_of_further, list_elem_of_further,
                list_elem_of_here);
    destruct (compound_row_label lettuce_params [crop_A; crop_B] self e
                Hinit) as (p1 & p2 & H1 & H2 & Hlabel);
      [|exact He|reflexivity|by exists self, e, p1, p2]
  end end.
  intros p Hp.
  apply elem_of_cons in Hp as [-> | Hp]; [reflexivity|].
  apply list_elem_of_singleton in Hp as ->. reflexivity.
Defined.

(** X24. The yield of a target that the summary shows, against the
    target's constraints.  Under a solution that satisfies every constraint
    of the model, with no negative area and no negative attributed yield,
    the figure of the summary is computed without exception; it is at most
    [max_yield] when that is given, and it can be less than [min_yield],
    but by no more than the number of entries that contribute to the
    target, since the yield of each entry is cut to an integer before the
    entries are added up. *)
Theorem target_yield_sum_within_targets (x : LpVariable -> Q)
  (self : Garden) (prob : LpProblem)
  (total_yield nitrogen_expression : LpAffineExpression)
  (plant_vars : gmap string LpVariable) (fallow_vars : gmap Z LpVariable)
  (yield_spec : YieldSpec) (t_yields : gmap string Q) :
  Garden_wf self →
  setup_problem (weeks (garden self)) self
  = Ok (prob, total_yield, nitrogen_expression, plant_vars, fallow_vars) →
  yield_spec ∈ yields (garden self) →
  get_target_yields self (plant yield_spec) = Ok t_yields →
  (∀ v, (0 <= x v)%Q) →
  (∀ c y, t_yields !! c = Some y → (0 <= y)%Q) →
  Forall (fun entry => satisfies x entry.2) (constraints prob) →
  ∃ total,
    target_yield_sum x (weeks (garden self)) plant_vars t_yields = Ok total
    ∧ (min_yield yield_spec
       <= inject_Z (total + Z.of_nat (size t_yields)))%Q
    ∧ ∀ m, max_yield yield_spec = Some m → (inject_Z total <= m)%Q.
Proof.
  intros Hwf Hsetup Hspec Hyields Hx Hy Hsat.
  rewrite (setup_problem_explicit self Hwf) in Hsetup.
  injection Hsetup as <- _ _ <- _. cbn [constraints] in Hsat.
  rewrite get_target_yields_fold in Hyields by done.
  injection Hyields as <-.
  destruct (target_yield_sum_bounds_of x self (plant yield_spec) Hwf Hx Hy)
    as (total & Htotal & Hlo & Hhi).
  exists total. split; [done|].
  rewrite list.Forall_forall in Hsat. split.
  - pose proof (Hsat _ (min_yield_in_model self yield_spec Hspec)) as Hmin.
    unfold satisfies in Hmin. cbn [snd sense lhs rhs] in Hmin.
    change (value x (Const (min_yield yield_spec)))
      with (min_yield yield_spec) in Hmin.
    by eapply Qle_trans.
  - intros m Hm.
    pose proof (Hsat _ (max_yield_in_model self yield_spec m Hspec Hm))
      as Hmax.
    unfold satisfies in Hmax. cbn [snd sense lhs rhs] in Hmax.
    change (value x (Const m)) with m in Hmax.
    by eapply Qle_trans.
Qed.

Lemma target_yield_sum_within_targets_witness :
  ∃ total,
    target_yield_sum lettuce_solution 4 (plant_vars_of lettuce_garden)
      {[ "lettuce" := 1%Q ]} = Ok total
    ∧ (50 <= inject_Z (total + 1))%Q.
Proof.
  eassert (setup_problem 4 lettuce_garden
           = Ok (_, _, _, plant_vars_of lettuce_garden, _)) as Hsetup
    by (vm_compute; reflexivity).
  assert (get_target_yields lettuce_garden "lettuce"
          = Ok {[ "lettuce" := 1%Q ]}) as Hyields
    by (vm_compute; reflexivity).
  destruct (target_yield_sum_within_targets lettuce_solution lettuce_garden
              _ _ _ _ _
              {| plant := "lettuce"; min_yield := 50;
                 max_yield := None; max_yield_pct := None |} _
              ltac:(vm_compute; reflexivity) Hsetup
              ltac:(apply list_elem_of_here) Hyields)
    as (total & Htotal & Hmin & _).
  - intros [key|w]; unfold lettuce_solution; case_decide; done.
  - intros c y Hcy. by apply lookup_singleton_Some in Hcy as [_ <-].
  - cbn [constraints]. repeat constructor; vm_compute;
      first [reflexivity | discriminate].
  - exists total. split; [exact Htotal|exact Hmin].
Defined.
